(** * restrix: a circuit breaker whose state lives in a shared key-value store

    The development follows the Go sources: [namespacer.go] (the four store
    keys of a breaker name) and the breaker engine ([DoCtx] with its five
    store transactions [init], [preRun], [flipClose], [flipOpen] and
    [recordError]).  The store, the connection to it and the clock are the
    engine's environment; they are modelled as one [world] that every
    operation threads through. *)

From Stdlib Require Import ZArith String Ascii List Bool Lia.
From Stdlib Require Import DecimalString DecimalZ DecimalPos SpecFloat.
From stdpp Require Import gmap strings.

Local Open Scope string_scope.
Local Open Scope list_scope.
Local Open Scope Z_scope.

(** ** Machine integers and decimal text *)

Definition min_int64 : Z := - 2 ^ 63.
Definition max_int64 : Z := 2 ^ 63 - 1.

Definition in_int64 (z : Z) : bool := (min_int64 <=? z) && (z <=? max_int64).

(** Go's [int] addition on a 64-bit platform: the sum wraps around. *)
Definition wrap64 (z : Z) : Z := (z - min_int64) mod 2 ^ 64 + min_int64.

(** Out-of-range results of [strconv.ParseInt] are pinned to the nearest
    bound. *)
Definition clamp64 (z : Z) : Z := Z.max min_int64 (Z.min max_int64 z).

(** The decimal text of an integer, as the store and the client write it. *)
Definition itoa (z : Z) : string := NilZero.string_of_int (Z.to_int z).

(** [strconv.ParseInt(s, 10, 0)] with its error dropped, which is how the
    engine uses it (through [redis.Int]): an optional sign, then one or more
    decimal digits; anything else reads as 0. *)
Definition ParseInt (s : string) : Z :=
  match NilZero.int_of_string s with
  | Some d => clamp64 (Z.of_int d)
  | None =>
      match s with
      | String "+" r =>
          match NilZero.uint_of_string r with
          | Some d => clamp64 (Z.of_uint d)
          | None => 0
          end
      | _ => 0
      end
  end.

(** The store's own reading of a counter value (INCR): only the canonical
    decimal text of a 64-bit integer is accepted. *)
Definition string2ll (s : string) : option Z :=
  match NilZero.int_of_string s with
  | Some d =>
      let z := Z.of_int d in
      if String.eqb (itoa z) s && in_int64 z then Some z else None
  | None => None
  end.

(** ** The store

    The shared store is the engine's one collaborator.  A key holds a string
    and, possibly, a remaining life; a key whose life has run out is not in
    the store any more.  Durations are [time.Duration] values: a count of
    nanoseconds. *)

Abbreviation Duration := Z.

Definition Second : Duration := 1000000000.

Record entry := Entry { value : string; ttl : option Duration }.

(** [d.Seconds()] as it reaches the store.  The engine hands the float64
    [d.Seconds()] to the client, which writes it in the shortest form that
    reads back as the same number; the store takes a decimal integer.  What
    arrives is one exactly when [d] is a whole number of seconds of fewer
    than seven digits: 1.5 arrives as "1.5" and a million as "1e+06". *)
Definition integral_seconds (d : Duration) : bool :=
  (d mod Second =? 0) && (- (1000000 * Second) <? d) && (d <? 1000000 * Second).

(** The durations that make a window: whole seconds, from 1 to 999999. *)
Definition whole_seconds (d : Duration) : bool :=
  (d mod Second =? 0) && (0 <? d) && (d <? 1000000 * Second).

(** The commands the engine sends, with the arguments it gives them.
    [EXPIRE_NX k d] is [EXPIRE k d.Seconds() NX].  Where the argument
    arrives as an integer, the store counts the life in seconds, which is
    [d] itself.  Where it does not, the store below answers that one command
    with an error and leaves the key as it is, the other commands of the
    batch taking effect, as a server does that checks a command when it
    runs it; a store that checks on queueing turns the whole batch down
    instead.  Every property below that rests on a life is stated for
    [whole_seconds] durations, where the stores agree. *)
Inductive command :=
| SETNX (key val : string)
| GET (key : string)
| INCR (key : string)
| EXPIRE_NX (key : string) (d : Duration)
| SET (key val : string)
| UNLINK (key : string).

Inductive reply :=
| RNil
| RBulk (s : string)
| RInt (n : Z)
| RStatus (s : string)
| RError (msg : string).

(** What one command does to the store and what it answers: SETNX writes
    only an absent key; INCR reads an absent key as 0, keeps the life of the
    key, and refuses what is not a 64-bit integer; EXPIRE with NX refuses a
    life that is not an integer, gives a life only to a key that has none,
    and a life that is not positive removes the key; SET overwrites value
    and life; UNLINK removes. *)
Definition exec1 (c : command) (st : gmap string entry) : gmap string entry * reply :=
  match c with
  | SETNX k v =>
      match st !! k with
      | Some _ => (st, RInt 0)
      | None => (<[k := Entry v None]> st, RInt 1)
      end
  | GET k =>
      match st !! k with
      | Some e => (st, RBulk (value e))
      | None => (st, RNil)
      end
  | INCR k =>
      match st !! k with
      | None => (<[k := Entry "1" None]> st, RInt 1)
      | Some e =>
          match string2ll (value e) with
          | Some n =>
              if n <? max_int64
              then (<[k := Entry (itoa (n + 1)) (ttl e)]> st, RInt (n + 1))
              else (st, RError "ERR increment or decrement would overflow")
          | None => (st, RError "ERR value is not an integer or out of range")
          end
      end
  | EXPIRE_NX k d =>
      if negb (integral_seconds d)
      then (st, RError "ERR value is not an integer or out of range")
      else
        match st !! k with
        | None => (st, RInt 0)
        | Some e =>
            match ttl e with
            | Some _ => (st, RInt 0)
            | None =>
                if 0 <? d
                then (<[k := Entry (value e) (Some d)]> st, RInt 1)
                else (delete k st, RInt 1)
            end
        end
  | SET k v => (<[k := Entry v None]> st, RStatus "OK")
  | UNLINK k =>
      match st !! k with
      | Some _ => (delete k st, RInt 1)
      | None => (st, RInt 0)
      end
  end.

(** MULTI ... EXEC: the queued commands run in order, nothing in between. *)
Fixpoint exec (cs : list command) (st : gmap string entry)
  : gmap string entry * list reply :=
  match cs with
  | [] => (st, [])
  | c :: cs' =>
      let '(st1, r) := exec1 c st in
      let '(st2, rs) := exec cs' st1 in
      (st2, r :: rs)
  end.

(** Time passing: every remaining life shrinks, and a key whose life is used
    up is gone. *)
Definition age (d : Duration) (e : entry) : option entry :=
  match ttl e with
  | None => Some e
  | Some t => if d <? t then Some (Entry (value e) (Some (t - d))) else None
  end.

Definition expire (d : Duration) (st : gmap string entry) : gmap string entry :=
  omap (age d) st.

(** [redis.Int] with its error dropped. *)
Definition redis_Int (r : reply) : Z :=
  match r with
  | RInt n => n
  | RBulk s => ParseInt s
  | _ => 0
  end.

(** The type assertion [r.([]byte)] followed by [string(...)]. The engine
    applies it only to the reply of a GET that follows a SETNX of the same
    key in one transaction, which is always a bulk string (lemma
    [init_state_is_bulk]); the other cases are there to keep the function
    total. *)
Definition bytes_string (r : reply) : string :=
  match r with
  | RBulk s => s
  | _ => ""
  end.

(** ** float64 arithmetic, for the error percentage *)

Definition float64 (n : Z) : spec_float := binary_normalize 53 1024 n 0 false.

(** Go's conversion [int(f)]: the fraction is dropped.  Where [f] has no
    integer value (NaN, infinities, magnitudes beyond 64 bits) the result is
    the one amd64 gives, the least integer. *)
Definition int_of_float64 (f : spec_float) : Z :=
  match f with
  | S754_zero _ => 0
  | S754_finite s m e =>
      let mag := if 0 <=? e then Z.pos m * 2 ^ e else Z.pos m / 2 ^ (- e) in
      let z := if s then - mag else mag in
      if in_int64 z then z else min_int64
  | _ => min_int64
  end.

(** [int((float64(errCount + 1)) / float64(reqCount) * 100)] *)
Definition errPercentage (errCount reqCount : Z) : Z :=
  int_of_float64
    (SFmul 53 1024
       (SFdiv 53 1024 (float64 (wrap64 (errCount + 1))) (float64 reqCount))
       (float64 100)).

(** ** The world: store, clock, connection, and what has happened so far *)

(** What the next round trip to the store will meet: the connection works,
    or it breaks before the transaction reaches the store, or it breaks after
    the store has applied it and before the replies come back. *)
Inductive link :=
| Up
| DownBefore (msg : string)
| DownAfter (msg : string).

Inductive event :=
| Tx (cmds : list command)
| Ran
| Printed (text : string).

Record world := World {
  store : gmap string entry;
  clock : Z;
  wire : list link;
  trace : list event
}.

Definition M (A : Type) : Type := world -> A * world.

Definition ret {A} (a : A) : M A := fun w => (a, w).

Definition bind {A B} (m : M A) (k : A -> M B) : M B :=
  fun w => let '(a, w1) := m w in k a w1.

Declare Scope go_scope.
Delimit Scope go_scope with go.
Notation "x <- m ;; k" := (bind m (fun x => k))
  (at level 100, m at next level, right associativity) : go_scope.
Notation "m ;;; k" := (bind m (fun _ => k))
  (at level 100, right associativity) : go_scope.
Local Open Scope go_scope.

Definition log (e : event) : M unit :=
  fun w => (tt, World (store w) (clock w) (wire w) (trace w ++ [e])).

(** One MULTI/EXEC round trip on a pooled connection (the [Send]s and the
    final [Do("EXEC")]): the queued replies, or the connection's error. *)
Definition transaction (cmds : list command) : M (list reply + string) :=
  fun w =>
    let '(st', rs) := exec cmds (store w) in
    let after st l := World st (clock w) l (trace w ++ [Tx cmds]) in
    match wire w with
    | [] => (inl rs, after st' [])
    | Up :: rest => (inl rs, after st' rest)
    | DownBefore msg :: rest => (inr msg, after (store w) rest)
    | DownAfter msg :: rest => (inr msg, after st' rest)
    end.

(** [time.Now().UTC().Unix()] *)
Definition Now_Unix : M Z := fun w => (clock w / Second, w).

(** [fmt.Printf("restrix: %s", msg)] *)
Definition Printf_restrix (msg : string) : M unit :=
  log (Printed ("restrix: " +:+ msg)).

(** Time passing between two calls. *)
Definition elapse (d : Duration) (w : world) : world :=
  World (expire d (store w)) (clock w + d) (wire w) (trace w).

(** What the coming round trips will meet. *)
Definition plug (l : list link) (w : world) : world :=
  World (store w) (clock w) l (trace w).

(** ** namespacer.go *)

Record namespacer := Namespacer { name : string }.

Definition currentState (n : namespacer) : string := name n +:+ ":current_state".
Definition requestCount (n : namespacer) : string := name n +:+ ":request_count".
Definition errorCount (n : namespacer) : string := name n +:+ ":error_count".
Definition openStateTTL (n : namespacer) : string := name n +:+ ":open_state_ttl".

Definition keys (n : namespacer) : list string :=
  [currentState n; requestCount n; errorCount n; openStateTTL n].

(** ** The breaker *)

Definition error := string.

Record CircuitSettings := {
  RequestCountThreshold : Z;
  SleepWindow : Duration;
  ErrorPercentThreshold : Z;
  Interval : Duration
}.

Record Breaker := {
  interval : Duration;
  requestCountThreshold : Z;
  errorPercentThreshold : Z;
  sleepWindow : Duration
}.

Definition circuitStateClosed : string := "CLOSED".
Definition circuitStateOpened : string := "OPENED".
Definition circuitStateHalfOpened : string := "HALF_OPENED".

Definition NewBreakerWithCustomSettings (settings : CircuitSettings) : Breaker :=
  {| interval := Interval settings;
     requestCountThreshold := RequestCountThreshold settings;
     errorPercentThreshold := ErrorPercentThreshold settings;
     sleepWindow := SleepWindow settings |}.

Definition NewBreaker : Breaker :=
  let defaultCircuitSettings :=
    {| RequestCountThreshold := 10;
       SleepWindow := 2 * Second;
       ErrorPercentThreshold := 70;
       Interval := 3 * Second |} in
  {| interval := Interval defaultCircuitSettings;
     requestCountThreshold := RequestCountThreshold defaultCircuitSettings;
     errorPercentThreshold := ErrorPercentThreshold defaultCircuitSettings;
     sleepWindow := SleepWindow defaultCircuitSettings |}.

(** The commands each transaction queues between MULTI and EXEC. *)

Definition init_cmds (ns : namespacer) : list command :=
  [ SETNX (currentState ns) circuitStateClosed;
    GET (currentState ns);
    GET (openStateTTL ns) ].

Definition preRun_cmds (b : Breaker) (ns : namespacer) : list command :=
  [ INCR (requestCount ns);
    SETNX (errorCount ns) "0";
    EXPIRE_NX (requestCount ns) (interval b);
    EXPIRE_NX (errorCount ns) (interval b);
    GET (requestCount ns);
    GET (errorCount ns) ].

Definition flipClose_cmds (ns : namespacer) : list command :=
  [ SET (currentState ns) circuitStateClosed;
    UNLINK (openStateTTL ns);
    UNLINK (requestCount ns);
    UNLINK (errorCount ns) ].

Definition recordError_cmds (b : Breaker) (ns : namespacer) : list command :=
  [ SETNX (requestCount ns) "1";
    SETNX (errorCount ns) "0";
    INCR (errorCount ns);
    EXPIRE_NX (requestCount ns) (interval b);
    EXPIRE_NX (errorCount ns) (interval b) ].

(** What the engine takes from outside its own files: [slug.Make]
    (github.com/gosimple/slug) and [strings.TrimSpace]; the namespacer
    method [lastOpenedAt] that [flipOpen] calls (the file namespacer.go at
    hand stops at [openStateTTL]); the package's sentinel error for a
    refused call; [context.Context] and [context.Background()]. *)
Class Externals := {
  slug_Make : string -> string;
  strings_TrimSpace : string -> string;
  lastOpenedAt : namespacer -> string;
  ErrCircuitOpened : error;
  context_Context : Type;
  context_Background : context_Context
}.

Section Engine.

Context `{X : Externals}.

Definition newNamespacer (name : string) : namespacer :=
  Namespacer ("restrix:" +:+ strings_TrimSpace (slug_Make name)).

Definition flipOpen_cmds (b : Breaker) (ns : namespacer) (now : Z) : list command :=
  [ SET (currentState ns) circuitStateOpened;
    SET (openStateTTL ns) "1";
    EXPIRE_NX (openStateTTL ns) (sleepWindow b);
    SET (lastOpenedAt ns) (itoa now) ].

(** Calling the wrapped function. *)
Definition call (runFnCtx : context_Context -> option error) (ctx : context_Context)
  : M (option error) :=
  log Ran ;;; ret (runFnCtx ctx).

Definition init (b : Breaker) (name : string) : M (string * Duration * option error) :=
  let ns := newNamespacer name in
  res <- transaction (init_cmds ns) ;;
  match res with
  | inr err => ret ("", 0, Some err)
  | inl res =>
      let cstate := bytes_string (nth 1 res RNil) in
      let osTTL := redis_Int (nth 2 res RNil) in
      ret (cstate, wrap64 (osTTL * Second), None)
  end.

Definition preRun (b : Breaker) (name : string) : M (Z * Z * option error) :=
  let ns := newNamespacer name in
  res <- transaction (preRun_cmds b ns) ;;
  match res with
  | inr err => ret (0, 0, Some err)
  | inl res =>
      let reqCount := redis_Int (nth 4 res RNil) in
      let errCount := redis_Int (nth 5 res RNil) in
      ret (reqCount, errCount, None)
  end.

Definition flipClose (b : Breaker) (name : string) : M (option error) :=
  let ns := newNamespacer name in
  res <- transaction (flipClose_cmds ns) ;;
  match res with
  | inr err => ret (Some err)
  | inl _ => ret None
  end.

Definition flipOpen (b : Breaker) (name : string) : M (option error) :=
  let ns := newNamespacer name in
  now <- Now_Unix ;;
  res <- transaction (flipOpen_cmds b ns now) ;;
  match res with
  | inr err => ret (Some err)
  | inl _ => ret None
  end.

Definition recordError (b : Breaker) (name : string) : M (option error) :=
  let ns := newNamespacer name in
  res <- transaction (recordError_cmds b ns) ;;
  match res with
  | inr err => ret (Some err)
  | inl _ => ret None
  end.

(** The shared tail of [DoCtx], label [FlipOpen].  The diagnostic prints
    the message of [err], the wrapped function's error. *)
Definition FlipOpen (b : Breaker) (name : string) (err : error) : M (option error) :=
  e <- flipOpen b name ;;
  match e with
  | Some _ => Printf_restrix err ;;; ret (Some err)
  | None => ret (Some err)
  end.

Definition DoCtx (b : Breaker) (ctx : context_Context) (name : string)
    (runFnCtx : context_Context -> option error) : M (option error) :=
  r <- init b name ;;
  let '(state, osTTL, err) := r in
  match err with
  | Some err => ret (Some ("restrix: " +:+ err))
  | None =>
      if String.eqb state circuitStateOpened && (0 <? osTTL)
      then ret (Some ErrCircuitOpened)
      else
        let state :=
          if String.eqb state circuitStateOpened then circuitStateHalfOpened else state in
        r <- preRun b name ;;
        let '(reqCount, errCount, err) := r in
        match err with
        | Some err => ret (Some ("restrix: " +:+ err))
        | None =>
            err <- call runFnCtx ctx ;;
            match err with
            | None =>
                if negb (String.eqb state circuitStateHalfOpened)
                then ret None
                else
                  err <- flipClose b name ;;
                  match err with
                  | Some err => Printf_restrix err ;;; ret None
                  | None => ret None
                  end
            | Some err =>
                if String.eqb state circuitStateHalfOpened
                then FlipOpen b name err
                else
                  let errPercentage := errPercentage errCount reqCount in
                  if (reqCount <? requestCountThreshold b)
                     || (errPercentage <? errorPercentThreshold b)
                  then
                    e <- recordError b name ;;
                    match e with
                    | Some e => Printf_restrix e ;;; ret (Some err)
                    | None => ret (Some err)
                    end
                  else FlipOpen b name err
            end
        end
  end.

(** [Do]: the same call for a function that takes no context. *)
Definition Do (b : Breaker) (name : string) (runFn : unit -> option error)
  : M (option error) :=
  let runFnCtx := fun _ : context_Context => runFn tt in
  DoCtx b context_Background name runFnCtx.

(** *** What a store says about one breaker *)

(** The stored state; a breaker that has no state key yet is closed. *)
Definition stored_state (st : gmap string entry) (n : namespacer) : string :=
  default circuitStateClosed (value <$> st !! currentState n).

(** Where a counter stands: at 0 while its key is absent, else at the
    integer its key holds ([None] when the key holds something else). *)
Definition count_at (st : gmap string entry) (k : string) : option Z :=
  match st !! k with
  | None => Some 0
  | Some e => string2ll (value e)
  end.

(** The Open-State Marker as [flipOpen] leaves it, with [t] of its life
    remaining. *)
Definition marker (t : Duration) : entry := Entry "1" (Some t).

(** [lastOpenedAt] names a key of its own. *)
Definition own_key (n : namespacer) : Prop := ~ In (lastOpenedAt n) (keys n).

(** The keys a trace names. *)
Definition command_key (c : command) : string :=
  match c with
  | SETNX k _ | GET k | INCR k | EXPIRE_NX k _ | SET k _ | UNLINK k => k
  end.

Definition event_keys (e : event) : list string :=
  match e with
  | Tx cmds => map command_key cmds
  | _ => []
  end.

Definition touched (tr : list event) : list string := flat_map event_keys tr.

(** The events of [w'] that came after [w]. *)
Definition since (w w' : world) : list event :=
  skipn (length (trace w)) (trace w').

(** The connection is in order for all the round trips to come. *)
Definition healthy (w : world) : Prop := wire w = [].

(** The next round trip goes through. *)
Definition link_up (w : world) : Prop := hd Up (wire w) = Up.

(** The worlds a breaker name can be in: it starts with none of its keys
    in the store; then guarded calls arrive, by any caller's settings and
    with any wrapped function, time passes between them, and the
    connection may fail in any way. *)
Inductive reachable (name : string) : world -> Prop :=
| reach_start w :
    (forall k, In k (keys (newNamespacer name)) -> store w !! k = None) ->
    reachable name w
| reach_call w b ctx runFnCtx :
    reachable name w ->
    reachable name (snd (DoCtx b ctx name runFnCtx w))
| reach_elapse w d :
    0 <= d -> reachable name w -> reachable name (elapse d w)
| reach_plug w l :
    reachable name w -> reachable name (plug l w).

(** What a batch leaves in the store, and what it answers. *)
Definition applied (cmds : list command) (st : gmap string entry) : gmap string entry :=
  fst (exec cmds st).

Definition replies (cmds : list command) (st : gmap string entry) : list reply :=
  snd (exec cmds st).

(** The batches a guarded call can send for a name. *)
Inductive engine_batch (b : Breaker) (ns : namespacer) : list command -> Prop :=
| batch_init : engine_batch b ns (init_cmds ns)
| batch_preRun : engine_batch b ns (preRun_cmds b ns)
| batch_flipClose : engine_batch b ns (flipClose_cmds ns)
| batch_flipOpen now : engine_batch b ns (flipOpen_cmds b ns now)
| batch_recordError : engine_batch b ns (recordError_cmds b ns).

(** A property of worlds that running [m] keeps. *)
Definition preserves {A} (P : world -> Prop) (m : M A) : Prop :=
  forall w, P w -> P (snd (m w)).

(** How the state key and the marker key of a name go together: the state
    key never carries a life of its own, and a marker is there only under
    the state OPENED, holding what [flipOpen] wrote. *)
Definition coherent (st : gmap string entry) (n : namespacer) : Prop :=
  (forall e, st !! currentState n = Some e -> ttl e = None) /\
  (forall e, st !! openStateTTL n = Some e ->
     value e = "1" /\ value <$> st !! currentState n = Some circuitStateOpened).

(** *** Further notions: links, courses of a call, counters and lives *)

(** What a link says of one round trip: the error the caller gets, if any,
    and whether the store applied the batch. *)
Definition down (l : link) : option string :=
  match l with
  | Up => None
  | DownBefore msg | DownAfter msg => Some msg
  end.

Definition reached (l : link) : bool :=
  match l with
  | DownBefore _ => false
  | _ => true
  end.

(** The life a key has left, if the key is there and has one. *)
Definition life_of (st : gmap string entry) (k : string) : option Duration :=
  st !! k ≫= ttl.

(** The batches that follow the wrapped function. *)
Inductive bookkeeping (b : Breaker) (ns : namespacer) : list command -> Prop :=
| book_flipClose : bookkeeping b ns (flipClose_cmds ns)
| book_flipOpen now : bookkeeping b ns (flipOpen_cmds b ns now)
| book_recordError : bookkeeping b ns (recordError_cmds b ns).

(** The courses a guarded call can take, as its events tell them. *)
Inductive course (b : Breaker) (ns : namespacer) : list event -> Prop :=
| course_init : course b ns [Tx (init_cmds ns)]
| course_preRun : course b ns [Tx (init_cmds ns); Tx (preRun_cmds b ns)]
| course_ran : course b ns [Tx (init_cmds ns); Tx (preRun_cmds b ns); Ran]
| course_booked cmds :
    bookkeeping b ns cmds ->
    course b ns [Tx (init_cmds ns); Tx (preRun_cmds b ns); Ran; Tx cmds]
| course_book_failed cmds text :
    bookkeeping b ns cmds ->
    course b ns [Tx (init_cmds ns); Tx (preRun_cmds b ns); Ran; Tx cmds; Printed text].

(** The two counters of a name go together: both absent, or both there
    with one and the same life (or both with none), the errors no more
    than the requests. *)
Definition counters_coherent (st : gmap string entry) (n : namespacer) : Prop :=
  (st !! requestCount n = None /\ st !! errorCount n = None) \/
  (exists r e ot,
     st !! requestCount n = Some (Entry (itoa r) ot) /\
     st !! errorCount n = Some (Entry (itoa e) ot) /\
     0 <= e <= r /\ r <= max_int64).

(** The same, once [preRun] has counted a request that no error has been
    recorded for yet. *)
Definition request_counted (st : gmap string entry) (n : namespacer) : Prop :=
  (st !! requestCount n = None /\ st !! errorCount n = None) \/
  (exists r e ot,
     st !! requestCount n = Some (Entry (itoa r) ot) /\
     st !! errorCount n = Some (Entry (itoa e) ot) /\
     0 <= e <= r /\ r <= max_int64 /\ (e < r \/ r = max_int64)).

(** The marker and the counters are never without a life: the marker's is
    positive and no longer than the sleep window, the counters' positive
    and no longer than the interval. *)
Definition lives_bounded (b : Breaker) (st : gmap string entry) (n : namespacer) : Prop :=
  (forall e, st !! openStateTTL n = Some e ->
     exists t, ttl e = Some t /\ 0 < t <= sleepWindow b) /\
  (forall k e, k = requestCount n \/ k = errorCount n ->
     st !! k = Some e -> exists t, ttl e = Some t /\ 0 < t <= interval b).

(** The worlds a name can reach when every caller has the settings [b]. *)
Inductive reachable_with (b : Breaker) (name : string) : world -> Prop :=
| reach_with_start w :
    (forall k, In k (keys (newNamespacer name)) -> store w !! k = None) ->
    reachable_with b name w
| reach_with_call w ctx runFnCtx :
    reachable_with b name w ->
    reachable_with b name (snd (DoCtx b ctx name runFnCtx w))
| reach_with_elapse w d :
    0 <= d -> reachable_with b name w -> reachable_with b name (elapse d w)
| reach_with_plug w l :
    reachable_with b name w -> reachable_with b name (plug l w).

End Engine.

(** ** Examples: settings and stores of the test-suite *)

(** Externals for the examples: breaker names that are slugs already, which
    [slug.Make] and [strings.TrimSpace] return as they are; for
    [lastOpenedAt] a fifth key after the pattern of the four; for the
    sentinel the message the earlier variant of the engine returns. *)
Definition plain : Externals := {|
  slug_Make := fun s => s;
  strings_TrimSpace := fun s => s;
  lastOpenedAt := fun n => name n +:+ ":last_opened_at";
  ErrCircuitOpened := "restrix: circuit opened";
  context_Context := unit;
  context_Background := tt
|}.

(** [circuitSetting] of TestBreaker_DoCtx. *)
Definition circuitSetting : CircuitSettings := {|
  RequestCountThreshold := 2;
  SleepWindow := 10 * Second;
  ErrorPercentThreshold := 50;
  Interval := 10 * Second
|}.

Definition breaker : Breaker := NewBreakerWithCustomSettings circuitSetting.

(** A world at time 0 whose store holds the given entries, with a
    connection in order. *)
Definition stocked (l : list (string * entry)) : world :=
  World (list_to_map l) 0 [] [].

Definition blank : world := stocked [].

Definition payments : namespacer := @newNamespacer plain "payments".

(** State OPENED with the marker alive, as after an opening 6 seconds
    ago. *)
Definition opened_live : world :=
  stocked [ (currentState payments, Entry circuitStateOpened None);
            (openStateTTL payments, marker (4 * Second));
            (requestCount payments, Entry "7" (Some (3 * Second)));
            (errorCount payments, Entry "6" (Some (3 * Second))) ].

(** State OPENED with the marker gone: the next call is a probe. *)
Definition opened_cold : world :=
  stocked [ (currentState payments, Entry circuitStateOpened None);
            (requestCount payments, Entry "5" None);
            (errorCount payments, Entry "2" None) ].

(** The store of the test "flip open": one request and one error seen. *)
Definition one_of_one : world :=
  stocked [ (requestCount payments, Entry "1" None);
            (errorCount payments, Entry "1" None) ].

Definition failing (msg : string) : unit -> option error := fun _ => Some msg.
Definition succeeding : unit -> option error := fun _ => None.

(** Two failing calls on an empty store open the circuit; ten seconds
    later the marker has run out. *)
Definition after_two_failures : world :=
  snd (@DoCtx plain breaker tt "payments" (failing "boom")
         (snd (@DoCtx plain breaker tt "payments" (failing "boom") blank))).

Definition ten_seconds_later : world := elapse (10 * Second) after_two_failures.

(** * Properties *)

Section Properties.

Context `{X : Externals}.


(** ** Decimal text *)

Lemma to_int_not_nil (z : Z) :
  Z.to_int z <> Decimal.Pos Decimal.Nil /\ Z.to_int z <> Decimal.Neg Decimal.Nil.
Proof.
  destruct z as [|p|p]; simpl; split; try discriminate;
    intros [= H]; exact (Unsigned.to_uint_nonnil p H).
Qed.

Lemma int_of_string_itoa (z : Z) :
  NilZero.int_of_string (itoa z) = Some (Z.to_int z).
Proof.
  unfold itoa. destruct (to_int_not_nil z) as [Hp Hn].
  now apply NilZero.isi.
Qed.

Lemma string2ll_itoa (z : Z) :
  in_int64 z = true -> string2ll (itoa z) = Some z.
Proof.
  intros Hz. unfold string2ll.
  rewrite int_of_string_itoa, DecimalZ.of_to, String.eqb_refl, Hz.
  reflexivity.
Qed.

Lemma in_int64_spec (z : Z) :
  in_int64 z = true <-> min_int64 <= z <= max_int64.
Proof. unfold in_int64. rewrite andb_true_iff, !Z.leb_le. tauto. Qed.

Lemma ParseInt_itoa (z : Z) :
  in_int64 z = true -> ParseInt (itoa z) = z.
Proof.
  intros Hz%in_int64_spec. unfold ParseInt.
  rewrite int_of_string_itoa, DecimalZ.of_to.
  unfold clamp64. lia.
Qed.

Lemma string2ll_in_int64 (s : string) (n : Z) :
  string2ll s = Some n -> in_int64 n = true.
Proof.
  unfold string2ll. destruct (NilZero.int_of_string s) as [d|]; [|discriminate].
  cbv zeta. destruct (_ =? _)%string; [|discriminate].
  destruct (in_int64 (Z.of_int d)) eqn:E; [|discriminate].
  now intros [= <-].
Qed.

Lemma string2ll_ParseInt (s : string) (n : Z) :
  string2ll s = Some n -> ParseInt s = n.
Proof.
  intros H. pose proof (string2ll_in_int64 _ _ H) as Hn. revert H.
  unfold string2ll. destruct (NilZero.int_of_string s) as [d|]; [|discriminate].
  cbv zeta. destruct (String.eqb_spec (itoa (Z.of_int d)) s) as [E|]; [|discriminate].
  destruct (in_int64 (Z.of_int d)); [|discriminate].
  intros [= <-]. rewrite <- E. now apply ParseInt_itoa.
Qed.

Lemma wrap64_in_int64 (z : Z) : in_int64 z = true -> wrap64 z = z.
Proof.
  intros H%in_int64_spec. unfold wrap64, min_int64, max_int64 in *.
  rewrite Z.mod_small; lia.
Qed.

Lemma in_int64_succ (n : Z) :
  in_int64 n = true -> n < max_int64 -> in_int64 (n + 1) = true.
Proof. rewrite !in_int64_spec. lia. Qed.

(** ** Durations of whole seconds *)

Lemma whole_seconds_pos (d : Duration) : whole_seconds d = true -> 0 < d.
Proof.
  unfold whole_seconds. rewrite !andb_true_iff, Z.ltb_lt. tauto.
Qed.

Lemma whole_seconds_integral (d : Duration) :
  whole_seconds d = true -> integral_seconds d = true.
Proof.
  unfold whole_seconds, integral_seconds, Second.
  rewrite !andb_true_iff, !Z.ltb_lt. intuition lia.
Qed.

(** ** The four keys of a name are four different keys *)

Lemma suffix_neq (p a b : string) : a <> b -> p +:+ a <> p +:+ b.
Proof. intros Hab H. apply Hab. exact (inj (String.append p) _ _ H). Qed.

Lemma keys_NoDup (n : namespacer) : NoDup (keys n).
Proof.
  unfold keys, currentState, requestCount, errorCount, openStateTTL.
  repeat (apply NoDup_cons_2;
    [ rewrite ?elem_of_cons, elem_of_nil;
      intros H; repeat (destruct H as [H|H]); try exact H;
      revert H; apply suffix_neq; discriminate | ]).
  apply NoDup_nil_2.
Qed.

Create HintDb keys.

Lemma cs_rc n : currentState n <> requestCount n.
Proof. apply suffix_neq; discriminate. Qed.
Lemma cs_ec n : currentState n <> errorCount n.
Proof. apply suffix_neq; discriminate. Qed.
Lemma cs_os n : currentState n <> openStateTTL n.
Proof. apply suffix_neq; discriminate. Qed.
Lemma rc_ec n : requestCount n <> errorCount n.
Proof. apply suffix_neq; discriminate. Qed.
Lemma rc_os n : requestCount n <> openStateTTL n.
Proof. apply suffix_neq; discriminate. Qed.
Lemma ec_os n : errorCount n <> openStateTTL n.
Proof. apply suffix_neq; discriminate. Qed.

#[local] Hint Resolve cs_rc cs_ec cs_os rc_ec rc_os ec_os : keys.
#[local] Hint Extern 1 (_ <> _) => apply not_eq_sym : keys.

(** ** What a batch of commands leaves alone *)

Lemma exec1_frame (c : command) (st : gmap string entry) (k : string) :
  k <> command_key c -> fst (exec1 c st) !! k = st !! k.
Proof.
  intros Hk. destruct c; cbn [exec1 command_key] in *;
    repeat case_match; cbn [fst];
    rewrite ?lookup_insert_ne, ?lookup_delete_ne by congruence; reflexivity.
Qed.

Lemma exec_cons (c : command) (cs : list command) (st : gmap string entry) :
  exec (c :: cs) st =
    (fst (exec cs (fst (exec1 c st))),
     snd (exec1 c st) :: snd (exec cs (fst (exec1 c st)))).
Proof.
  cbn [exec]. destruct (exec1 c st) as [st1 r]. cbn [fst snd].
  destruct (exec cs st1) as [st2 rs]. reflexivity.
Qed.

Lemma exec_frame (cs : list command) (st : gmap string entry) (k : string) :
  ~ In k (map command_key cs) -> fst (exec cs st) !! k = st !! k.
Proof.
  revert st. induction cs as [|c cs IH]; intros st Hk; [reflexivity|].
  rewrite exec_cons. cbn [fst]. cbn [map In] in Hk.
  rewrite IH by tauto. apply exec1_frame. intros ->. tauto.
Qed.

(** ** Symbolic execution of batches *)

Lemma since_app (w w' : world) (evs : list event) :
  trace w' = trace w ++ evs -> since w w' = evs.
Proof.
  intros H. unfold since. rewrite H.
  rewrite skipn_app, skipn_all, Nat.sub_diag. reflexivity.
Qed.

Lemma own_key_neq (n : namespacer) :
  own_key n ->
  lastOpenedAt n <> currentState n /\ lastOpenedAt n <> requestCount n /\
  lastOpenedAt n <> errorCount n /\ lastOpenedAt n <> openStateTTL n.
Proof. unfold own_key, keys. cbn [In]. intuition congruence. Qed.

Ltac own_keys H :=
  apply own_key_neq in H; destruct H as (? & ? & ? & ?).

Ltac keys_neq := solve [auto with keys].

Ltac in_range :=
  solve [ reflexivity
        | eauto using in_int64_succ, string2ll_in_int64 ].

Ltac look :=
  repeat first
    [ rewrite lookup_insert_eq
    | rewrite lookup_insert_ne by keys_neq
    | rewrite lookup_delete_eq
    | rewrite lookup_delete_ne by keys_neq
    | rewrite ParseInt_itoa by in_range
    | rewrite string2ll_itoa by in_range
    | match goal with
      | H : whole_seconds ?d = true |- context [integral_seconds ?d] =>
          rewrite (whole_seconds_integral d H)
      | H : whole_seconds ?d = true |- context [Z.ltb 0 ?d] =>
          rewrite (proj2 (Z.ltb_lt 0 d) (whole_seconds_pos d H))
      | H : integral_seconds ?d = _ |- context [integral_seconds ?d] => rewrite H
      | H : ?st !! ?k = _ |- context [?st !! ?k] => rewrite H
      | H : string2ll ?s = _ |- context [string2ll ?s] => rewrite H
      | H : string2ll ?s = _ |- context [ParseInt ?s] =>
          rewrite (string2ll_ParseInt _ _ H)
      | |- context [Z.ltb ?a ?b] =>
          first [ rewrite (proj2 (Z.ltb_lt a b)) by lia
                | rewrite (proj2 (Z.ltb_ge a b)) by lia ]
      end ].

Ltac closed t :=
  match t with
  | context [?x] => is_var x; fail 1
  | _ => idtac
  end.

Ltac decide_closed :=
  repeat match goal with
    | |- context [String.eqb ?a ?b] =>
        closed a; closed b;
        let v := eval vm_compute in (String.eqb a b) in
        change (String.eqb a b) with v
    | |- context [Z.ltb ?a ?b] =>
        closed a; closed b;
        let v := eval vm_compute in (Z.ltb a b) in
        change (Z.ltb a b) with v
    | |- context [ParseInt ?s] =>
        closed s;
        let v := eval vm_compute in (ParseInt s) in
        change (ParseInt s) with v
    | |- context [string2ll ?s] =>
        closed s;
        let v := eval vm_compute in (string2ll s) in
        change (string2ll s) with v
    | |- context [wrap64 ?z] =>
        closed z;
        let v := eval vm_compute in (wrap64 z) in
        change (wrap64 z) with v
    end.

(** Unfold a batch and run it command by command. *)
Ltac crank :=
  cbv beta iota zeta delta
    [applied replies
     init_cmds preRun_cmds flipClose_cmds flipOpen_cmds recordError_cmds
     exec exec1 bytes_string redis_Int fst snd value ttl nth
     andb orb negb].

Ltac run :=
  repeat first [ progress crank | progress look | progress decide_closed ].

Ltac split_top :=
  match goal with
  | |- context [match ?x with _ => _ end] =>
      lazymatch x with
      | context [match _ with _ => _ end] => fail
      | _ => destruct x eqn:?
      end
  end.

Ltac grind := repeat (run; try split_top).

(** *** init *)

Lemma init_applied (ns : namespacer) (st : gmap string entry) :
  applied (init_cmds ns) st =
    match st !! currentState ns with
    | Some _ => st
    | None => <[currentState ns := Entry circuitStateClosed None]> st
    end.
Proof. destruct (st !! currentState ns) eqn:E; grind; reflexivity. Qed.

(** The reply that [init] asserts to be a byte string is one, on every
    store. *)
Lemma init_state_is_bulk (ns : namespacer) (st : gmap string entry) :
  nth 1 (replies (init_cmds ns) st) RNil = RBulk (stored_state st ns).
Proof.
  unfold stored_state.
  destruct (st !! currentState ns) eqn:E; grind; reflexivity.
Qed.

Lemma init_marker_reply (ns : namespacer) (st : gmap string entry) :
  nth 2 (replies (init_cmds ns) st) RNil =
    match st !! openStateTTL ns with
    | Some e => RBulk (value e)
    | None => RNil
    end.
Proof.
  destruct (st !! currentState ns) eqn:E;
    destruct (st !! openStateTTL ns) eqn:E'; run; reflexivity.
Qed.

Lemma init_frame (ns : namespacer) (st : gmap string entry) (k : string) :
  k <> currentState ns -> applied (init_cmds ns) st !! k = st !! k.
Proof.
  intros Hk. rewrite init_applied.
  destruct (st !! currentState ns); [reflexivity|].
  now rewrite lookup_insert_ne.
Qed.

Lemma init_stored_state (ns : namespacer) (st : gmap string entry) :
  stored_state (applied (init_cmds ns) st) ns = stored_state st ns.
Proof.
  rewrite init_applied. unfold stored_state.
  destruct (st !! currentState ns) eqn:E; [now rewrite E|].
  now rewrite lookup_insert_eq.
Qed.

(** *** preRun *)

Lemma preRun_frame (b : Breaker) (ns : namespacer) (st : gmap string entry) (k : string) :
  k <> requestCount ns -> k <> errorCount ns ->
  applied (preRun_cmds b ns) st !! k = st !! k.
Proof.
  intros H1 H2. apply exec_frame. cbn. intuition congruence.
Qed.

Lemma preRun_requests (b : Breaker) (ns : namespacer) (st : gmap string entry) (n : Z) :
  0 < interval b ->
  count_at st (requestCount ns) = Some n -> n < max_int64 ->
  redis_Int (nth 4 (replies (preRun_cmds b ns) st) RNil) = n + 1 /\
  count_at (applied (preRun_cmds b ns) st) (requestCount ns) = Some (n + 1).
Proof.
  intros Hi Hn Hmax. unfold count_at in *.
  destruct (st !! requestCount ns) as [[v t]|] eqn:E; cbn [value] in Hn.
  - destruct t; grind; split; reflexivity.
  - injection Hn as <-. grind; split; reflexivity.
Qed.

Lemma preRun_errors (b : Breaker) (ns : namespacer) (st : gmap string entry) :
  0 < interval b ->
  count_at (applied (preRun_cmds b ns) st) (errorCount ns) = count_at st (errorCount ns) /\
  (forall z, count_at st (errorCount ns) = Some z ->
     redis_Int (nth 5 (replies (preRun_cmds b ns) st) RNil) = z).
Proof.
  intros Hi. unfold count_at.
  destruct (st !! errorCount ns) as [[v t]|] eqn:E; cbn [value].
  - split; [|intros z Hz]; destruct t; grind; reflexivity.
  - split; [|intros z [= <-]]; grind; reflexivity.
Qed.

(** *** recordError *)

Lemma recordError_frame (b : Breaker) (ns : namespacer) (st : gmap string entry) (k : string) :
  k <> requestCount ns -> k <> errorCount ns ->
  applied (recordError_cmds b ns) st !! k = st !! k.
Proof.
  intros H1 H2. apply exec_frame. cbn. intuition congruence.
Qed.

Lemma recordError_errors (b : Breaker) (ns : namespacer) (st : gmap string entry) (z : Z) :
  0 < interval b ->
  count_at st (errorCount ns) = Some z -> z < max_int64 ->
  count_at (applied (recordError_cmds b ns) st) (errorCount ns) = Some (z + 1).
Proof.
  intros Hi Hz Hmax. unfold count_at in *.
  destruct (st !! errorCount ns) as [[v t]|] eqn:E; cbn [value] in Hz.
  - destruct t; grind; reflexivity.
  - injection Hz as <-. grind; reflexivity.
Qed.

(** *** flipOpen *)

Lemma flipOpen_state (b : Breaker) (ns : namespacer) (now : Z) (st : gmap string entry) :
  own_key ns ->
  applied (flipOpen_cmds b ns now) st !! currentState ns =
    Some (Entry circuitStateOpened None).
Proof. intros Hown. own_keys Hown. grind; reflexivity. Qed.

Lemma flipOpen_marker (b : Breaker) (ns : namespacer) (now : Z) (st : gmap string entry) :
  own_key ns ->
  applied (flipOpen_cmds b ns now) st !! openStateTTL ns =
    if integral_seconds (sleepWindow b)
    then if 0 <? sleepWindow b then Some (marker (sleepWindow b)) else None
    else Some (Entry "1" None).
Proof. intros Hown. own_keys Hown. grind; reflexivity. Qed.

Lemma flipOpen_marker_whole (b : Breaker) (ns : namespacer) (now : Z)
    (st : gmap string entry) :
  own_key ns ->
  whole_seconds (sleepWindow b) = true ->
  applied (flipOpen_cmds b ns now) st !! openStateTTL ns =
    Some (marker (sleepWindow b)).
Proof.
  intros Hown Hsw. rewrite flipOpen_marker by assumption.
  now rewrite (whole_seconds_integral _ Hsw),
    (proj2 (Z.ltb_lt _ _) (whole_seconds_pos _ Hsw)).
Qed.

Lemma flipOpen_frame (b : Breaker) (ns : namespacer) (now : Z) (st : gmap string entry)
    (k : string) :
  k <> currentState ns -> k <> openStateTTL ns -> k <> lastOpenedAt ns ->
  applied (flipOpen_cmds b ns now) st !! k = st !! k.
Proof.
  intros H1 H2 H3. apply exec_frame. cbn. intuition congruence.
Qed.

(** *** flipClose *)

Lemma flipClose_state (ns : namespacer) (st : gmap string entry) :
  applied (flipClose_cmds ns) st !! currentState ns =
    Some (Entry circuitStateClosed None).
Proof. grind; reflexivity. Qed.

Lemma flipClose_gone (ns : namespacer) (st : gmap string entry) (k : string) :
  k = openStateTTL ns \/ k = requestCount ns \/ k = errorCount ns ->
  applied (flipClose_cmds ns) st !! k = None.
Proof. intros [->|[->| ->]]; grind; reflexivity. Qed.


(** ** The engine on a connection in order *)

Lemma transaction_healthy (cmds : list command) st clk tr :
  transaction cmds (World st clk [] tr) =
    (inl (replies cmds st), World (applied cmds st) clk [] (tr ++ [Tx cmds])).
Proof.
  unfold transaction, applied, replies. cbn [store wire clock trace].
  destruct (exec cmds st). reflexivity.
Qed.

Lemma init_healthy b name st clk tr :
  let ns := newNamespacer name in
  init b name (World st clk [] tr) =
    ((stored_state st ns,
      wrap64 (redis_Int (nth 2 (replies (init_cmds ns) st) RNil) * Second),
      None),
     World (applied (init_cmds ns) st) clk [] (tr ++ [Tx (init_cmds ns)])).
Proof.
  intros ns. unfold init, bind. fold ns. rewrite transaction_healthy.
  rewrite init_state_is_bulk. reflexivity.
Qed.

Lemma preRun_healthy b name st clk tr :
  let ns := newNamespacer name in
  preRun b name (World st clk [] tr) =
    ((redis_Int (nth 4 (replies (preRun_cmds b ns) st) RNil),
      redis_Int (nth 5 (replies (preRun_cmds b ns) st) RNil),
      None),
     World (applied (preRun_cmds b ns) st) clk [] (tr ++ [Tx (preRun_cmds b ns)])).
Proof.
  intros ns. unfold preRun, bind. fold ns. rewrite transaction_healthy. reflexivity.
Qed.

Lemma flipClose_healthy b name st clk tr :
  let ns := newNamespacer name in
  flipClose b name (World st clk [] tr) =
    (None, World (applied (flipClose_cmds ns) st) clk [] (tr ++ [Tx (flipClose_cmds ns)])).
Proof.
  intros ns. unfold flipClose, bind. fold ns. rewrite transaction_healthy. reflexivity.
Qed.

Lemma flipOpen_healthy b name st clk tr :
  let ns := newNamespacer name in
  let cmds := flipOpen_cmds b ns (clk / Second) in
  flipOpen b name (World st clk [] tr) =
    (None, World (applied cmds st) clk [] (tr ++ [Tx cmds])).
Proof.
  intros ns cmds. unfold flipOpen, bind, Now_Unix. cbn [clock].
  fold ns. fold cmds. rewrite transaction_healthy. reflexivity.
Qed.

Lemma recordError_healthy b name st clk tr :
  let ns := newNamespacer name in
  recordError b name (World st clk [] tr) =
    (None,
     World (applied (recordError_cmds b ns) st) clk []
       (tr ++ [Tx (recordError_cmds b ns)])).
Proof.
  intros ns. unfold recordError, bind. fold ns. rewrite transaction_healthy. reflexivity.
Qed.

Ltac enter w :=
  destruct w as [st clk wr tr]; unfold healthy, link_up in *;
  cbn [store wire trace clock hd] in *.

Ltac simp :=
  repeat first
    [ progress cbv beta iota zeta
    | progress cbn [store wire trace clock fst snd andb orb negb redis_Int]
    | progress decide_closed ].

(** One step of [DoCtx] on a connection in order. *)
Ltac step :=
  first [ rewrite init_healthy | rewrite preRun_healthy
        | rewrite flipClose_healthy | rewrite flipOpen_healthy
        | rewrite recordError_healthy ];
  simp.

Ltac open_DoCtx :=
  unfold DoCtx, FlipOpen, call, Printf_restrix, bind, log, ret; simp.

Ltac finish :=
  repeat split; try reflexivity;
  try (apply since_app; cbn [trace]; rewrite <- ?app_assoc; reflexivity).

Lemma stored_state_lookup st ns v t :
  st !! currentState ns = Some (Entry v t) -> stored_state st ns = v.
Proof. intros H. unfold stored_state. now rewrite H. Qed.

Lemma count_at_ext st st' k :
  st' !! k = st !! k -> count_at st' k = count_at st k.
Proof. intros H. unfold count_at. now rewrite H. Qed.

Lemma stored_state_ext st st' ns :
  st' !! currentState ns = st !! currentState ns ->
  stored_state st' ns = stored_state st ns.
Proof. intros H. unfold stored_state. now rewrite H. Qed.

Lemma count_at_in_int64 st k z : count_at st k = Some z -> in_int64 z = true.
Proof.
  unfold count_at. destruct (st !! k).
  - apply string2ll_in_int64.
  - now intros [= <-].
Qed.

Lemma init_up b name st clk wr tr :
  let ns := newNamespacer name in
  hd Up wr = Up ->
  init b name (World st clk wr tr) =
    ((stored_state st ns,
      wrap64 (redis_Int (nth 2 (replies (init_cmds ns) st) RNil) * Second),
      None),
     World (applied (init_cmds ns) st) clk (tl wr) (tr ++ [Tx (init_cmds ns)])).
Proof.
  intros ns Hup. unfold init, bind, transaction. fold ns.
  cbn [store wire clock trace].
  pose proof (init_state_is_bulk ns st) as Hb. unfold replies, applied in *.
  destruct (exec (init_cmds ns) st) as [st' rs]. cbn [fst snd] in *.
  destruct wr as [|l rest]; [|cbn in Hup; subst l]; cbn [tl ret];
    rewrite Hb; reflexivity.
Qed.

(** A call that meets the state OPENED and a marker reading as 1. *)
Lemma refused_run b ctx name runFnCtx st clk wr tr ts e :
  let ns := newNamespacer name in
  hd Up wr = Up ->
  st !! currentState ns = Some (Entry circuitStateOpened ts) ->
  st !! openStateTTL ns = Some e -> value e = "1" ->
  DoCtx b ctx name runFnCtx (World st clk wr tr) =
    (Some ErrCircuitOpened, World st clk (tl wr) (tr ++ [Tx (init_cmds ns)])).
Proof.
  intros ns Hup Hcs Hos He. subst ns.
  open_DoCtx. rewrite init_up by assumption. simp.
  rewrite (stored_state_lookup _ _ _ _ Hcs), init_marker_reply, Hos.
  simp. rewrite He. simp.
  rewrite init_applied, Hcs. reflexivity.
Qed.

Lemma stored_opened_lookup st ns :
  stored_state st ns = circuitStateOpened ->
  exists ts, st !! currentState ns = Some (Entry circuitStateOpened ts).
Proof.
  unfold stored_state. destruct (st !! currentState ns) as [[v t]|]; cbn.
  - intros ->. now exists t.
  - discriminate.
Qed.

(** The two ways a probe goes, on a connection in order. *)

Lemma failed_probe_run b ctx name runFnCtx st clk tr ts err :
  let ns := newNamespacer name in
  st !! currentState ns = Some (Entry circuitStateOpened ts) ->
  st !! openStateTTL ns = None ->
  runFnCtx ctx = Some err ->
  let st2 := applied (preRun_cmds b ns) (applied (init_cmds ns) st) in
  let cmds := flipOpen_cmds b ns (clk / Second) in
  DoCtx b ctx name runFnCtx (World st clk [] tr) =
    (Some err,
     World (applied cmds st2) clk []
       (tr ++ [Tx (init_cmds ns); Tx (preRun_cmds b ns); Ran; Tx cmds])).
Proof.
  intros ns Hcs Hos Hf st2 cmds. subst st2 cmds ns.
  open_DoCtx. step.
  rewrite (stored_state_lookup _ _ _ _ Hcs), init_marker_reply, Hos. simp.
  step. rewrite Hf. simp. step.
  rewrite <- !app_assoc. reflexivity.
Qed.

Lemma successful_probe_run b ctx name runFnCtx st clk tr ts :
  let ns := newNamespacer name in
  st !! currentState ns = Some (Entry circuitStateOpened ts) ->
  st !! openStateTTL ns = None ->
  runFnCtx ctx = None ->
  let st2 := applied (preRun_cmds b ns) (applied (init_cmds ns) st) in
  DoCtx b ctx name runFnCtx (World st clk [] tr) =
    (None,
     World (applied (flipClose_cmds ns) st2) clk []
       (tr ++ [Tx (init_cmds ns); Tx (preRun_cmds b ns); Ran;
               Tx (flipClose_cmds ns)])).
Proof.
  intros ns Hcs Hos Hf st2. subst st2 ns.
  open_DoCtx. step.
  rewrite (stored_state_lookup _ _ _ _ Hcs), init_marker_reply, Hos. simp.
  step. rewrite Hf. simp. step.
  rewrite <- !app_assoc. reflexivity.
Qed.

(** C1. While the stored state is OPENED and the Open-State Marker is
    alive, [DoCtx] returns the circuit-open error at once: its only
    round trip is [init]'s, the wrapped function is not called, and the
    store, counters included, is left as it was. *)
Theorem refuses_while_open b ctx name runFnCtx w ts t :
  let ns := newNamespacer name in
  link_up w ->
  store w !! currentState ns = Some (Entry circuitStateOpened ts) ->
  store w !! openStateTTL ns = Some (marker t) ->
  0 < t ->
  let r := DoCtx b ctx name runFnCtx w in
  fst r = Some ErrCircuitOpened /\
  since w (snd r) = [Tx (init_cmds ns)] /\
  store (snd r) = store w.
Proof.
  intros ns Hup Hcs Hos Ht r. subst r ns.
  enter w.
  rewrite (refused_run _ _ _ _ _ _ _ _ _ _ Hup Hcs Hos eq_refl).
  cbn [fst snd store]. repeat split. now apply since_app.
Qed.

(** C2. A failing guarded call in the closed state opens the circuit
    exactly when the request count it has just raised reaches the request
    threshold and the error percentage reaches the error threshold (both
    compared with >=); when either falls short the error is recorded and
    the state stays CLOSED.  Here the interval and the sleep window are
    whole seconds, from 1 to 999999. *)
Theorem opens_at_both_thresholds b ctx name runFnCtx w n e err :
  let ns := newNamespacer name in
  healthy w ->
  own_key ns ->
  whole_seconds (interval b) = true ->
  whole_seconds (sleepWindow b) = true ->
  stored_state (store w) ns = circuitStateClosed ->
  count_at (store w) (requestCount ns) = Some n -> n < max_int64 ->
  count_at (store w) (errorCount ns) = Some e -> e < max_int64 ->
  runFnCtx ctx = Some err ->
  let r := DoCtx b ctx name runFnCtx w in
  let reqCount := n + 1 in
  let errPercent := errPercentage e reqCount in
  (stored_state (store (snd r)) ns = circuitStateOpened <->
     requestCountThreshold b <= reqCount /\ errorPercentThreshold b <= errPercent) /\
  (reqCount < requestCountThreshold b \/ errPercent < errorPercentThreshold b ->
     stored_state (store (snd r)) ns = circuitStateClosed /\
     count_at (store (snd r)) (errorCount ns) = Some (e + 1)).
Proof.
  intros ns Hw Hown Hwi Hws Hcs Hrc Hn Hec He Hf r reqCount errPercent.
  pose proof (whole_seconds_pos _ Hwi) as Hi.
  subst r reqCount errPercent ns.
  enter w. subst wr. open_DoCtx. step. rewrite Hcs. simp.
  set (ns := newNamespacer name) in *.
  set (st1 := applied (init_cmds ns) st).
  assert (Hrc1 : count_at st1 (requestCount ns) = Some n).
  { rewrite <- Hrc. apply count_at_ext, init_frame. auto with keys. }
  assert (Hec1 : count_at st1 (errorCount ns) = Some e).
  { rewrite <- Hec. apply count_at_ext, init_frame. auto with keys. }
  assert (Hcs1 : stored_state st1 ns = circuitStateClosed).
  { rewrite <- Hcs. apply init_stored_state. }
  step. fold ns.
  destruct (preRun_requests b ns st1 n Hi Hrc1 Hn) as [Hq Hrc2].
  destruct (preRun_errors b ns st1 Hi) as [Hec2 Hp].
  rewrite Hq, (Hp e Hec1), Hf. simp.
  set (st2 := applied (preRun_cmds b ns) st1) in *.
  assert (Hcs2 : stored_state st2 ns = circuitStateClosed).
  { rewrite <- Hcs1. apply stored_state_ext, preRun_frame; auto with keys. }
  destruct (n + 1 <? requestCountThreshold b) eqn:Hc1;
    [| destruct (errPercentage e (n + 1) <? errorPercentThreshold b) eqn:Hc2 ];
    simp; step; fold ns.
  3: { apply Z.ltb_ge in Hc1, Hc2.
       rewrite (stored_state_lookup _ _ _ _ (flipOpen_state b ns _ st2 Hown)).
       split; [tauto | lia]. }
  all: assert (Hcs3 : stored_state (applied (recordError_cmds b ns) st2) ns
                      = circuitStateClosed)
         by (rewrite <- Hcs2; apply stored_state_ext, recordError_frame;
             auto with keys).
  all: rewrite Hcs3; split; [split; [discriminate|] | intros _; split; [reflexivity|] ].
  all: try (apply recordError_errors; congruence).
  - apply Z.ltb_lt in Hc1. lia.
  - apply Z.ltb_lt in Hc2. lia.
Qed.


(** C3. In a failing guarded call in the closed state, [preRun] hands
    back the request count it has just raised and the error count as it
    stood before this failure; the percentage that decides on opening is
    (errorCount + 1) / requestCount * 100 over these two, computed in
    float64 and cut to an integer.  Here the interval and the sleep window
    are whole seconds, from 1 to 999999. *)
Theorem error_ratio_of_the_decision b ctx name runFnCtx w n e err :
  let ns := newNamespacer name in
  healthy w ->
  own_key ns ->
  whole_seconds (interval b) = true ->
  whole_seconds (sleepWindow b) = true ->
  stored_state (store w) ns = circuitStateClosed ->
  count_at (store w) (requestCount ns) = Some n -> n < max_int64 ->
  count_at (store w) (errorCount ns) = Some e -> e < max_int64 ->
  runFnCtx ctx = Some err ->
  let r := DoCtx b ctx name runFnCtx w in
  let reqCount := n + 1 in
  let errCount := e in
  let ratio :=
    SFmul 53 1024
      (SFdiv 53 1024 (float64 (errCount + 1)) (float64 reqCount))
      (float64 100) in
  fst (preRun b name (snd (init b name w))) = (reqCount, errCount, None) /\
  (stored_state (store (snd r)) ns = circuitStateOpened <->
     requestCountThreshold b <= reqCount /\
     errorPercentThreshold b <= int_of_float64 ratio).
Proof.
  intros ns Hw Hown Hwi Hws Hcs Hrc Hn Hec He Hf r rq ec ratio.
  pose proof (whole_seconds_pos _ Hwi) as Hi.
  assert (Hpct : int_of_float64 ratio = errPercentage e (n + 1)).
  { unfold errPercentage, ratio, ec, rq. rewrite wrap64_in_int64; [reflexivity|].
    apply in_int64_succ; [|assumption].
    exact (count_at_in_int64 _ _ _ Hec). }
  rewrite Hpct. clear Hpct ratio. subst r rq ec ns.
  enter w. subst wr.
  set (ns := newNamespacer name) in *.
  set (st1 := applied (init_cmds ns) st).
  assert (Hrc1 : count_at st1 (requestCount ns) = Some n).
  { rewrite <- Hrc. apply count_at_ext, init_frame. auto with keys. }
  assert (Hec1 : count_at st1 (errorCount ns) = Some e).
  { rewrite <- Hec. apply count_at_ext, init_frame. auto with keys. }
  destruct (preRun_requests b ns st1 n Hi Hrc1 Hn) as [Hq Hrc2].
  destruct (preRun_errors b ns st1 Hi) as [Hec2 Hp].
  split.
  - rewrite init_healthy. cbn [snd]. rewrite preRun_healthy. cbn [fst].
    fold ns. fold st1. now rewrite Hq, (Hp e Hec1).
  - open_DoCtx. step. fold ns. rewrite Hcs. simp. step. fold ns. fold st1.
    rewrite Hq, (Hp e Hec1), Hf. simp.
    set (st2 := applied (preRun_cmds b ns) st1) in *.
    assert (Hcs2 : stored_state st2 ns = circuitStateClosed).
    { rewrite <- Hcs. unfold st2, st1.
      etransitivity; [apply stored_state_ext, preRun_frame; auto with keys|].
      apply init_stored_state. }
    destruct (n + 1 <? requestCountThreshold b) eqn:Hc1;
      [| destruct (errPercentage e (n + 1) <? errorPercentThreshold b) eqn:Hc2 ];
      simp; step; fold ns.
    3: { apply Z.ltb_ge in Hc1, Hc2.
         rewrite (stored_state_lookup _ _ _ _ (flipOpen_state b ns _ st2 Hown)).
         tauto. }
    all: assert (Hcs3 : stored_state (applied (recordError_cmds b ns) st2) ns
                        = circuitStateClosed)
           by (rewrite <- Hcs2; apply stored_state_ext, recordError_frame;
               auto with keys).
    all: rewrite Hcs3; split; [discriminate|].
    + apply Z.ltb_lt in Hc1. lia.
    + apply Z.ltb_lt in Hc2. lia.
Qed.


(** C9. From a store that has none of the name's keys, one guarded call
    whose wrapped function succeeds leaves Request Count at 1, Error Count
    at 0 and the state CLOSED; after [init], [preRun] and the call of the
    wrapped function there is no further round trip.  Here the interval is
    of whole seconds, from 1 to 999999, and becomes the life of both
    counters. *)
Theorem first_success b ctx name runFnCtx w :
  let ns := newNamespacer name in
  healthy w ->
  whole_seconds (interval b) = true ->
  (forall k, In k (keys ns) -> store w !! k = None) ->
  runFnCtx ctx = None ->
  let r := DoCtx b ctx name runFnCtx w in
  fst r = None /\
  store (snd r) !! requestCount ns = Some (Entry "1" (Some (interval b))) /\
  store (snd r) !! errorCount ns = Some (Entry "0" (Some (interval b))) /\
  store (snd r) !! currentState ns = Some (Entry circuitStateClosed None) /\
  since w (snd r) = [Tx (init_cmds ns); Tx (preRun_cmds b ns); Ran].
Proof.
  intros ns Hw Hwi Hk Hf r. subst r ns.
  enter w. subst wr.
  pose proof (Hk _ (or_introl eq_refl)) as Hcs.
  pose proof (Hk _ (or_intror (or_introl eq_refl))) as Hrc.
  pose proof (Hk _ (or_intror (or_intror (or_introl eq_refl)))) as Hec.
  assert (S : stored_state st (newNamespacer name) = circuitStateClosed)
    by (unfold stored_state; now rewrite Hcs).
  open_DoCtx. step. rewrite S. simp. step. rewrite Hf. simp.
  rewrite init_applied, Hcs.
  repeat split; try (run; reflexivity).
  apply since_app; cbn [trace]; rewrite <- ?app_assoc; reflexivity.
Qed.

(** C10. In a probe (state OPENED, marker gone) [preRun] still raises the
    Request Count by one; when the wrapped function then fails, the Error
    Count stays where it stood: the call goes from the wrapped function
    straight to [flipOpen], and no [recordError] batch is sent.  Here the
    interval and the sleep window are whole seconds, from 1 to 999999. *)
Theorem failed_probe_counts b ctx name runFnCtx w ts n err :
  let ns := newNamespacer name in
  healthy w ->
  own_key ns ->
  whole_seconds (interval b) = true ->
  whole_seconds (sleepWindow b) = true ->
  store w !! currentState ns = Some (Entry circuitStateOpened ts) ->
  store w !! openStateTTL ns = None ->
  count_at (store w) (requestCount ns) = Some n -> n < max_int64 ->
  runFnCtx ctx = Some err ->
  let r := DoCtx b ctx name runFnCtx w in
  count_at (store (snd r)) (requestCount ns) = Some (n + 1) /\
  count_at (store (snd r)) (errorCount ns) = count_at (store w) (errorCount ns) /\
  since w (snd r) =
    [Tx (init_cmds ns); Tx (preRun_cmds b ns); Ran;
     Tx (flipOpen_cmds b ns (clock w / Second))].
Proof.
  intros ns Hw Hown Hwi Hws Hcs Hos Hrc Hn Hf r.
  pose proof (whole_seconds_pos _ Hwi) as Hi. subst r ns.
  enter w. subst wr.
  rewrite (failed_probe_run _ _ _ _ _ _ _ _ _ Hcs Hos Hf). cbn [snd store].
  set (ns := newNamespacer name) in *.
  set (st1 := applied (init_cmds ns) st).
  assert (Hrc1 : count_at st1 (requestCount ns) = Some n).
  { rewrite <- Hrc. apply count_at_ext, init_frame. auto with keys. }
  destruct (preRun_requests b ns st1 n Hi Hrc1 Hn) as [_ Hrc2].
  destruct (preRun_errors b ns st1 Hi) as [Hec2 _].
  pose proof Hown as Hown'. own_keys Hown'.
  repeat split.
  - rewrite <- Hrc2. apply count_at_ext, flipOpen_frame; auto with keys.
  - etransitivity; [apply count_at_ext, flipOpen_frame; auto with keys|].
    rewrite Hec2. apply count_at_ext, init_frame. auto with keys.
  - apply since_app. reflexivity.
Qed.

(** ** The engine on any connection *)

Lemma transaction_cases (cmds : list command) (w : world) :
  let w' := snd (transaction cmds w) in
  clock w' = clock w /\
  trace w' = trace w ++ [Tx cmds] /\
  (store w' = store w \/ store w' = applied cmds (store w)).
Proof.
  unfold transaction, applied. destruct (exec cmds (store w)) as [st' rs].
  destruct (wire w) as [|[| |] rest]; cbn; auto.
Qed.

Lemma preserves_ret {A} (P : world -> Prop) (a : A) : preserves P (ret a).
Proof. intros w Hw. exact Hw. Qed.

Lemma preserves_bind {A B} (P : world -> Prop) (m : M A) (k : A -> M B) :
  preserves P m -> (forall a, preserves P (k a)) -> preserves P (bind m k).
Proof.
  intros Hm Hk w Hw. unfold bind.
  specialize (Hm w Hw). destruct (m w) as [a w1]. exact (Hk a w1 Hm).
Qed.

Section Preserved.

(** A property that the engine's batches and its other events keep is kept
    by a guarded call. *)
Variable P : world -> Prop.
Variable b : Breaker.
Variable name : string.

Hypothesis P_log :
  forall e, event_keys e = [] -> preserves P (log e).
Hypothesis P_batch :
  forall cmds, engine_batch b (newNamespacer name) cmds -> preserves P (transaction cmds).

Lemma init_preserves : preserves P (init b name).
Proof.
  unfold init. apply preserves_bind; [apply P_batch; constructor|].
  intros [?|?]; apply preserves_ret.
Qed.

Lemma preRun_preserves : preserves P (preRun b name).
Proof.
  unfold preRun. apply preserves_bind; [apply P_batch; constructor|].
  intros [?|?]; apply preserves_ret.
Qed.

Lemma flipClose_preserves : preserves P (flipClose b name).
Proof.
  unfold flipClose. apply preserves_bind; [apply P_batch; constructor|].
  intros [?|?]; apply preserves_ret.
Qed.

Lemma recordError_preserves : preserves P (recordError b name).
Proof.
  unfold recordError. apply preserves_bind; [apply P_batch; constructor|].
  intros [?|?]; apply preserves_ret.
Qed.

Lemma flipOpen_preserves : preserves P (flipOpen b name).
Proof.
  unfold flipOpen. apply preserves_bind; [intros w Hw; exact Hw|].
  intros now. apply preserves_bind; [apply P_batch; constructor|].
  intros [?|?]; apply preserves_ret.
Qed.

Lemma Printf_preserves (msg : string) : preserves P (Printf_restrix msg).
Proof. apply P_log. reflexivity. Qed.

Lemma FlipOpen_preserves (err : error) : preserves P (FlipOpen b name err).
Proof.
  unfold FlipOpen. apply preserves_bind; [apply flipOpen_preserves|].
  intros [?|]; [|apply preserves_ret].
  apply preserves_bind; [apply Printf_preserves | intros; apply preserves_ret].
Qed.

Lemma DoCtx_preserves ctx runFnCtx : preserves P (DoCtx b ctx name runFnCtx).
Proof.
  unfold DoCtx. apply preserves_bind; [apply init_preserves|].
  intros [[state osTTL] [err|]]; [apply preserves_ret|].
  destruct (_ && _); [apply preserves_ret|].
  apply preserves_bind; [apply preRun_preserves|].
  intros [[reqCount errCount] [err|]]; [apply preserves_ret|].
  apply preserves_bind.
  { unfold call. apply preserves_bind; [now apply P_log | intros; apply preserves_ret]. }
  intros [err|].
  - destruct (_ =? _)%string; [apply FlipOpen_preserves|].
    cbv zeta. destruct (_ || _); [|apply FlipOpen_preserves].
    apply preserves_bind; [apply recordError_preserves|].
    intros [?|]; [|apply preserves_ret].
    apply preserves_bind; [apply Printf_preserves | intros; apply preserves_ret].
  - destruct (negb _); [apply preserves_ret|].
    apply preserves_bind; [apply flipClose_preserves|].
    intros [?|]; [|apply preserves_ret].
    apply preserves_bind; [apply Printf_preserves | intros; apply preserves_ret].
Qed.

End Preserved.

(** *** What a call returns *)

Lemma init_trace b name w :
  trace (snd (init b name w)) = trace w ++ [Tx (init_cmds (newNamespacer name))].
Proof.
  unfold init, bind.
  destruct (transaction_cases (init_cmds (newNamespacer name)) w) as (_ & Ht & _).
  destruct (transaction _ w) as [[res|err] w1]; exact Ht.
Qed.

Lemma preRun_trace b name w :
  trace (snd (preRun b name w)) = trace w ++ [Tx (preRun_cmds b (newNamespacer name))].
Proof.
  unfold preRun, bind.
  destruct (transaction_cases (preRun_cmds b (newNamespacer name)) w) as (_ & Ht & _).
  destruct (transaction _ w) as [[res|err] w1]; exact Ht.
Qed.

Lemma FlipOpen_returns b name err w : fst (FlipOpen b name err w) = Some err.
Proof.
  unfold FlipOpen, bind. destruct (flipOpen b name w) as [[e|] w1]; reflexivity.
Qed.

(** C6. Whenever the wrapped function was called and failed, what
    [DoCtx] returns is the wrapped function's own error, whether the
    failure opened the circuit or was only recorded, and whatever became
    of the bookkeeping round trip. *)
Theorem returns_the_work_error b ctx name runFnCtx w err :
  runFnCtx ctx = Some err ->
  let r := DoCtx b ctx name runFnCtx w in
  In Ran (since w (snd r)) ->
  fst r = Some err.
Proof.
  intros Hf r. subst r.
  destruct (DoCtx b ctx name runFnCtx w) as [res w'] eqn:E. cbn [fst snd].
  unfold DoCtx, call, bind, log, ret in E.
  pose proof (init_trace b name w) as T1.
  destruct (init b name w) as [[[state osTTL] [e0|]] w1]; cbn [snd] in T1.
  { injection E as <- <-. rewrite (since_app _ _ _ T1).
    cbn. intuition discriminate. }
  destruct (_ && _).
  { injection E as <- <-. rewrite (since_app _ _ _ T1).
    cbn. intuition discriminate. }
  pose proof (preRun_trace b name w1) as T2.
  destruct (preRun b name w1) as [[[reqCount errCount] [e1|]] w2]; cbn [snd] in T2.
  { injection E as <- <-. rewrite T1, <- app_assoc in T2.
    rewrite (since_app _ _ _ T2). cbn. intuition discriminate. }
  intros _. rewrite Hf in E.
  assert (HF : forall w3 : world, fst (FlipOpen b name err w3) = Some err)
    by (intros; apply FlipOpen_returns).
  destruct (String.eqb _ circuitStateHalfOpened).
  { apply (f_equal fst) in E. now rewrite HF in E. }
  cbv zeta in E. destruct (_ || _).
  - destruct (recordError b name _) as [[e|] w3]; now injection E as <- <-.
  - apply (f_equal fst) in E. now rewrite HF in E.
Qed.

(** *** The keys a call names *)

Lemma touched_app (tr tr' : list event) :
  touched (tr ++ tr') = touched tr ++ touched tr'.
Proof. unfold touched. apply flat_map_app. Qed.

Lemma engine_batch_keys b ns cmds k :
  engine_batch b ns cmds -> In k (map command_key cmds) ->
  In k (keys ns) \/ k = lastOpenedAt ns.
Proof.
  unfold keys. intros [] Hk; cbn in Hk |- *; intuition auto.
Qed.

(** C8, as the code has it. The keys that the batches of a guarded call
    name are among five: the four keys of the name and the key
    [lastOpenedAt] gives; a call that reopens the circuit, with an
    interval of whole seconds from 1 to 999999, does write the fifth. *)
Theorem names_five_keys b ctx name runFnCtx w :
  let ns := newNamespacer name in
  let w' := snd (DoCtx b ctx name runFnCtx w) in
  (forall k, In k (touched (since w w')) -> In k (keys ns) \/ k = lastOpenedAt ns) /\
  (forall ts err,
     healthy w ->
     whole_seconds (interval b) = true ->
     store w !! currentState ns = Some (Entry circuitStateOpened ts) ->
     store w !! openStateTTL ns = None ->
     runFnCtx ctx = Some err ->
     In (lastOpenedAt ns) (touched (since w w'))).
Proof.
  intros ns w'. split.
  - set (P := fun w1 : world => exists evs, trace w1 = trace w ++ evs /\
         forall k, In k (touched evs) -> In k (keys ns) \/ k = lastOpenedAt ns).
    assert (HP : P w').
    { apply (DoCtx_preserves P b name).
      - intros e He w1 (evs & Ht & Hk). exists (evs ++ [e]). split.
        + cbn. rewrite Ht, app_assoc. reflexivity.
        + intros k. rewrite touched_app. cbn. rewrite He. cbn.
          rewrite app_nil_r. apply Hk.
      - intros cmds Hb w1 (evs & Ht & Hk).
        destruct (transaction_cases cmds w1) as (_ & Ht' & _).
        exists (evs ++ [Tx cmds]). split.
        + rewrite Ht', Ht, app_assoc. reflexivity.
        + intros k. rewrite touched_app, in_app_iff. cbn. rewrite app_nil_r.
          intros [H|H]; [now apply Hk | exact (engine_batch_keys _ _ _ _ Hb H)].
      - exists []. split; [now rewrite app_nil_r | intros k []]. }
    destruct HP as (evs & Ht & Hk). now rewrite (since_app _ _ _ Ht).
  - intros ts err Hw Hwi Hcs Hos Hf. subst w' ns.
    enter w. subst wr.
    rewrite (failed_probe_run _ _ _ _ _ _ _ _ _ Hcs Hos Hf). cbn [snd].
    erewrite since_app by reflexivity.
    cbn. auto 20.
Qed.

(** *** The state key and the marker key *)

Lemma coherent_ext st st' ns :
  st' !! currentState ns = st !! currentState ns ->
  st' !! openStateTTL ns = st !! openStateTTL ns ->
  coherent st ns -> coherent st' ns.
Proof. unfold coherent. intros -> ->. tauto. Qed.

Lemma batch_coherent b ns cmds st :
  own_key ns -> engine_batch b ns cmds ->
  coherent st ns -> coherent (applied cmds st) ns.
Proof.
  intros Hown [] Hc.
  - rewrite init_applied. destruct (st !! currentState ns) eqn:E; [exact Hc|].
    destruct Hc as [H1 H2]. split; intros e.
    + rewrite lookup_insert_eq. now intros [= <-].
    + rewrite lookup_insert_ne by auto with keys. intros He.
      destruct (H2 e He) as [_ H]. rewrite E in H. discriminate.
  - revert Hc. apply coherent_ext; apply preRun_frame; auto with keys.
  - split; intros e.
    + rewrite flipClose_state. now intros [= <-].
    + rewrite flipClose_gone by tauto. discriminate.
  - split; intros e.
    + rewrite flipOpen_state by assumption. now intros [= <-].
    + rewrite flipOpen_marker, flipOpen_state by assumption.
      destruct (integral_seconds (sleepWindow b));
        [destruct (0 <? sleepWindow b); [|discriminate]|];
        now intros [= <-].
  - revert Hc. apply coherent_ext; apply recordError_frame; auto with keys.
Qed.

Lemma expire_lookup d st k :
  expire d st !! k = st !! k ≫= age d.
Proof. unfold expire. apply lookup_omap. Qed.

Lemma expire_coherent d st ns : coherent st ns -> coherent (expire d st) ns.
Proof.
  intros [H1 H2].
  assert (Hcs : forall e, st !! currentState ns = Some e ->
                          expire d st !! currentState ns = Some e).
  { intros e He. rewrite expire_lookup, He. cbn.
    unfold age. now rewrite (H1 e He). }
  split; intros e.
  - rewrite expire_lookup.
    destruct (st !! currentState ns) as [e0|] eqn:E; [|discriminate].
    cbn. unfold age. rewrite (H1 e0 eq_refl). intros [= <-]. exact (H1 e0 eq_refl).
  - rewrite expire_lookup.
    destruct (st !! openStateTTL ns) as [e0|] eqn:E; [|discriminate].
    cbn. intros Ha. destruct (H2 e0 eq_refl) as [Hv Hs].
    assert (value e = value e0) as ->.
    { unfold age in Ha. destruct (ttl e0); [destruct (_ <? _)|];
        inversion Ha; reflexivity. }
    split; [exact Hv|].
    destruct (st !! currentState ns) as [ec|] eqn:Ec; [|discriminate].
    rewrite (Hcs ec eq_refl). exact Hs.
Qed.

Lemma reachable_coherent name w :
  own_key (newNamespacer name) ->
  reachable name w -> coherent (store w) (newNamespacer name).
Proof.
  intros Hown. induction 1 as [w Hk|w b ctx f Hr IH|w d Hd Hr IH|w l Hr IH].
  - split; intros e He; rewrite Hk in He; try discriminate;
      unfold keys; cbn; auto.
  - revert IH.
    apply (DoCtx_preserves (fun w => coherent (store w) (newNamespacer name)) b name).
    + intros e _ w1 Hc. exact Hc.
    + intros cmds Hb w1 Hc.
      destruct (transaction_cases cmds w1) as (_ & _ & [-> | ->]);
        [exact Hc | now apply (batch_coherent b)].
  - now apply expire_coherent.
  - exact IH.
Qed.

(** C7, as the code has it. In every world a breaker name can reach,
    the Open-State Marker is there only under the stored state OPENED (the
    state stays OPENED after the marker has run out); and under the state
    OPENED it is the marker's absence that lets the next call through to
    the wrapped function, as a probe, when the caller's interval is of
    whole seconds, from 1 to 999999. *)
Theorem marker_only_when_opened name w :
  let ns := newNamespacer name in
  own_key ns ->
  reachable name w ->
  (is_Some (store w !! openStateTTL ns) ->
   stored_state (store w) ns = circuitStateOpened) /\
  (forall b ctx runFnCtx,
     healthy w ->
     whole_seconds (interval b) = true ->
     stored_state (store w) ns = circuitStateOpened ->
     (In Ran (since w (snd (DoCtx b ctx name runFnCtx w))) <->
      store w !! openStateTTL ns = None)).
Proof.
  intros ns Hown Hr. subst ns.
  destruct (reachable_coherent name w Hown Hr) as [_ H2]. split.
  - intros [e He]. destruct (H2 e He) as [_ Hs].
    unfold stored_state. now rewrite Hs.
  - intros b ctx f Hw Hwi [ts Hcs]%stored_opened_lookup.
    enter w. subst wr.
    destruct (st !! openStateTTL (newNamespacer name)) as [e|] eqn:Hos.
    + destruct (H2 e eq_refl) as [He _].
      rewrite (refused_run b ctx name f st clk [] tr ts e eq_refl Hcs Hos He).
      cbn [snd tl].
      erewrite since_app by reflexivity. cbn. intuition discriminate.
    + destruct (f ctx) as [err|] eqn:Hf.
      * rewrite (failed_probe_run _ _ _ _ _ _ _ _ _ Hcs Hos Hf). cbn [snd].
        erewrite since_app by reflexivity. cbn. intuition.
      * rewrite (successful_probe_run _ _ _ _ _ _ _ _ Hcs Hos Hf). cbn [snd].
        erewrite since_app by reflexivity. cbn. intuition.
Qed.

(** * Further properties of the engine *)

(** ** namespacer.go: which names share keys *)

Lemma list_ascii_of_append (a b : string) :
  list_ascii_of_string (a +:+ b) = list_ascii_of_string a ++ list_ascii_of_string b.
Proof.
  induction a as [|c a IH]; [reflexivity|].
  change (String c a +:+ b) with (String c (a +:+ b)).
  cbn [list_ascii_of_string app]. now rewrite IH.
Qed.

Lemma append_rev_eq (p p' s s' : string) :
  p +:+ s = p' +:+ s' ->
  rev (list_ascii_of_string s) ++ rev (list_ascii_of_string p) =
  rev (list_ascii_of_string s') ++ rev (list_ascii_of_string p').
Proof.
  intros H. apply (f_equal list_ascii_of_string) in H.
  rewrite !list_ascii_of_append in H. apply (f_equal (@rev ascii)) in H.
  now rewrite !rev_app_distr in H.
Qed.

Lemma list_ascii_inj (p p' : string) :
  rev (list_ascii_of_string p) = rev (list_ascii_of_string p') -> p = p'.
Proof.
  intros H. apply (f_equal (@rev ascii)) in H. rewrite !rev_involutive in H.
  rewrite <- (string_of_list_ascii_of_string p), H.
  apply string_of_list_ascii_of_string.
Qed.

Ltac suffix_clash H :=
  apply append_rev_eq in H; cbn in H;
  solve [ discriminate H
        | injection H as H; apply list_ascii_inj in H; auto ].

(** Two keys are one key only when they are the same key of the same
    namespace. *)
Lemma key_inj (n n' : namespacer) (k : string) :
  In k (keys n) -> In k (keys n') -> name n = name n'.
Proof.
  unfold keys, currentState, requestCount, errorCount, openStateTTL.
  cbn [In]. intros H H'.
  repeat (destruct H as [H|H]); try contradiction; subst k;
    repeat (destruct H' as [H'|H']); try contradiction;
    symmetry in H'; suffix_clash H'.
Qed.

(** X1. Two breaker names share a store key exactly when they come to the
    same slug; names of different slugs have no key in common. *)
Theorem keys_shared_iff_same_slug (a b : string) :
  (exists k, In k (keys (newNamespacer a)) /\ In k (keys (newNamespacer b))) <->
  strings_TrimSpace (slug_Make a) = strings_TrimSpace (slug_Make b).
Proof.
  split.
  - intros (k & Ha & Hb). pose proof (key_inj _ _ _ Ha Hb) as H.
    unfold newNamespacer in H. cbn [name] in H.
    exact (inj (String.append "restrix:") _ _ H).
  - intros H. exists (currentState (newNamespacer a)).
    unfold newNamespacer. rewrite H. unfold keys. cbn. auto.
Qed.

(** ** One round trip on a given link *)

Lemma transaction_on (cmds : list command) st clk l rest tr :
  transaction cmds (World st clk (l :: rest) tr) =
    (match down l with None => inl (replies cmds st) | Some msg => inr msg end,
     World (if reached l then applied cmds st else st) clk rest (tr ++ [Tx cmds])).
Proof.
  unfold transaction, applied, replies. cbn [store wire clock trace].
  destruct (exec cmds st). destruct l; reflexivity.
Qed.

Lemma init_on b name st clk l rest tr :
  let ns := newNamespacer name in
  init b name (World st clk (l :: rest) tr) =
    (match down l with
     | None =>
         (stored_state st ns,
          wrap64 (redis_Int (nth 2 (replies (init_cmds ns) st) RNil) * Second),
          None)
     | Some msg => ("", 0, Some msg)
     end,
     World (if reached l then applied (init_cmds ns) st else st) clk rest
       (tr ++ [Tx (init_cmds ns)])).
Proof.
  intros ns. unfold init, bind. fold ns. rewrite transaction_on.
  destruct l; cbn [down ret]; rewrite ?init_state_is_bulk; reflexivity.
Qed.

Lemma preRun_on b name st clk l rest tr :
  let ns := newNamespacer name in
  preRun b name (World st clk (l :: rest) tr) =
    (match down l with
     | None =>
         (redis_Int (nth 4 (replies (preRun_cmds b ns) st) RNil),
          redis_Int (nth 5 (replies (preRun_cmds b ns) st) RNil),
          None)
     | Some msg => (0, 0, Some msg)
     end,
     World (if reached l then applied (preRun_cmds b ns) st else st) clk rest
       (tr ++ [Tx (preRun_cmds b ns)])).
Proof.
  intros ns. unfold preRun, bind. fold ns. rewrite transaction_on.
  destruct l; reflexivity.
Qed.

Lemma flipClose_on b name st clk l rest tr :
  let ns := newNamespacer name in
  flipClose b name (World st clk (l :: rest) tr) =
    (down l,
     World (if reached l then applied (flipClose_cmds ns) st else st) clk rest
       (tr ++ [Tx (flipClose_cmds ns)])).
Proof.
  intros ns. unfold flipClose, bind. fold ns. rewrite transaction_on.
  destruct l; reflexivity.
Qed.

Lemma flipOpen_on b name st clk l rest tr :
  let ns := newNamespacer name in
  let cmds := flipOpen_cmds b ns (clk / Second) in
  flipOpen b name (World st clk (l :: rest) tr) =
    (down l,
     World (if reached l then applied cmds st else st) clk rest (tr ++ [Tx cmds])).
Proof.
  intros ns cmds. unfold flipOpen, bind, Now_Unix. cbn [clock].
  fold ns. fold cmds. rewrite transaction_on. destruct l; reflexivity.
Qed.

Lemma recordError_on b name st clk l rest tr :
  let ns := newNamespacer name in
  recordError b name (World st clk (l :: rest) tr) =
    (down l,
     World (if reached l then applied (recordError_cmds b ns) st else st) clk rest
       (tr ++ [Tx (recordError_cmds b ns)])).
Proof.
  intros ns. unfold recordError, bind. fold ns. rewrite transaction_on.
  destruct l; reflexivity.
Qed.

Ltac step_on :=
  first [ rewrite init_on | rewrite preRun_on
        | rewrite flipClose_on | rewrite flipOpen_on
        | rewrite recordError_on ];
  cbn [down reached]; simp.

(** ** init: what it reads and what it writes *)

(** X2. [init] answers with the stored state (CLOSED for a name that has
    none yet, which it then writes) and with an open-state life of one
    second for any living marker, whatever life the marker has left, and
    of zero when there is no marker; it changes no key but an absent state
    key. *)
Theorem init_reads_state_and_marker b name w :
  let ns := newNamespacer name in
  link_up w ->
  let r := init b name w in
  (store w !! openStateTTL ns = None ->
     fst r = (stored_state (store w) ns, 0, None)) /\
  (forall t, store w !! openStateTTL ns = Some (marker t) ->
     fst r = (stored_state (store w) ns, Second, None)) /\
  value <$> store (snd r) !! currentState ns = Some (stored_state (store w) ns) /\
  (forall k, k <> currentState ns \/ is_Some (store w !! currentState ns) ->
     store (snd r) !! k = store w !! k).
Proof.
  intros ns Hup r. subst r ns. enter w.
  rewrite init_up by assumption. cbn [fst snd store].
  rewrite init_marker_reply. repeat split.
  - intros ->. reflexivity.
  - intros t ->. reflexivity.
  - rewrite init_applied. unfold stored_state.
    destruct (st !! currentState (newNamespacer name)) as [e|] eqn:E.
    + now rewrite E.
    + now rewrite lookup_insert_eq.
  - intros k [Hk|[e He]].
    + now apply init_frame.
    + now rewrite init_applied, He.
Qed.

(** ** When the store cannot be reached *)

(** X3. When the round trip of [init] fails, [DoCtx] returns the
    connection's error behind the prefix "restrix: "; it sends nothing
    more and does not call the wrapped function. *)
Theorem init_failure_aborts b ctx name runFnCtx w l rest msg :
  wire w = l :: rest ->
  down l = Some msg ->
  let r := DoCtx b ctx name runFnCtx w in
  fst r = Some ("restrix: " +:+ msg) /\
  since w (snd r) = [Tx (init_cmds (newNamespacer name))] /\
  (reached l = false -> store (snd r) = store w).
Proof.
  intros Hw Hl r. subst r. enter w. subst wr.
  open_DoCtx. rewrite init_on. rewrite Hl. simp.
  repeat split.
  - now apply since_app.
  - intros ->. reflexivity.
Qed.

(** X4. When [init] finds the circuit closed and the round trip of
    [preRun] fails, [DoCtx] returns the connection's error behind the
    prefix "restrix: " without calling the wrapped function and without
    any bookkeeping; if the batch had reached the store, the request is
    counted all the same.  Here the interval is of whole seconds, from 1
    to 999999. *)
Theorem preRun_failure_aborts b ctx name runFnCtx w l rest msg n :
  let ns := newNamespacer name in
  wire w = Up :: l :: rest ->
  down l = Some msg ->
  whole_seconds (interval b) = true ->
  stored_state (store w) ns = circuitStateClosed ->
  count_at (store w) (requestCount ns) = Some n -> n < max_int64 ->
  let r := DoCtx b ctx name runFnCtx w in
  fst r = Some ("restrix: " +:+ msg) /\
  since w (snd r) = [Tx (init_cmds ns); Tx (preRun_cmds b ns)] /\
  count_at (store (snd r)) (requestCount ns) =
    Some (if reached l then n + 1 else n).
Proof.
  intros ns Hw Hl Hwi Hcs Hrc Hn r.
  pose proof (whole_seconds_pos _ Hwi) as Hi. subst r ns. enter w. subst wr.
  open_DoCtx. step_on. rewrite Hcs. simp. rewrite preRun_on, Hl. simp.
  set (ns := newNamespacer name) in *.
  assert (Hrc1 : count_at (applied (init_cmds ns) st) (requestCount ns) = Some n).
  { rewrite <- Hrc. apply count_at_ext, init_frame. auto with keys. }
  repeat split.
  - apply since_app. cbn [trace]. now rewrite <- app_assoc.
  - destruct (reached l); [|exact Hrc1].
    now destruct (preRun_requests b ns _ n Hi Hrc1 Hn).
Qed.

(** X5. A probe whose wrapped function succeeds returns nil even when the
    round trip of [flipClose] fails; the failure is printed, and if the
    batch never reached the store the state stays OPENED with no marker,
    so that the next call is a probe again.  Here the interval is of whole
    seconds, from 1 to 999999. *)
Theorem flipClose_failure_is_not_fatal b ctx name runFnCtx w l rest msg ts :
  let ns := newNamespacer name in
  wire w = Up :: Up :: l :: rest ->
  down l = Some msg ->
  whole_seconds (interval b) = true ->
  store w !! currentState ns = Some (Entry circuitStateOpened ts) ->
  store w !! openStateTTL ns = None ->
  runFnCtx ctx = None ->
  let r := DoCtx b ctx name runFnCtx w in
  fst r = None /\
  since w (snd r) =
    [Tx (init_cmds ns); Tx (preRun_cmds b ns); Ran; Tx (flipClose_cmds ns);
     Printed ("restrix: " +:+ msg)] /\
  (reached l = false ->
     store (snd r) !! currentState ns = Some (Entry circuitStateOpened ts) /\
     store (snd r) !! openStateTTL ns = None).
Proof.
  intros ns Hw Hl Hwi Hcs Hos Hf r. subst r ns. enter w. subst wr.
  open_DoCtx. step_on.
  rewrite (stored_state_lookup _ _ _ _ Hcs), init_marker_reply, Hos. simp.
  step_on. rewrite Hf. simp. rewrite flipClose_on, Hl. simp.
  repeat split.
  - apply since_app. cbn [trace]. now rewrite <- !app_assoc.
  - rewrite H. rewrite preRun_frame, init_applied, Hcs by auto with keys.
    exact Hcs.
  - rewrite H. rewrite preRun_frame, init_applied, Hcs by auto with keys.
    exact Hos.
Qed.

(** X6. When the wrapped function fails and the round trip of [flipOpen]
    fails too, [DoCtx] still returns the wrapped function's error; what it
    prints is that same error's message, not the connection's.  Here the
    interval is of whole seconds, from 1 to 999999. *)
Theorem flipOpen_failure_prints_work_error b ctx name runFnCtx w l rest msg ts err :
  let ns := newNamespacer name in
  wire w = Up :: Up :: l :: rest ->
  down l = Some msg ->
  whole_seconds (interval b) = true ->
  store w !! currentState ns = Some (Entry circuitStateOpened ts) ->
  store w !! openStateTTL ns = None ->
  runFnCtx ctx = Some err ->
  let r := DoCtx b ctx name runFnCtx w in
  fst r = Some err /\
  since w (snd r) =
    [Tx (init_cmds ns); Tx (preRun_cmds b ns); Ran;
     Tx (flipOpen_cmds b ns (clock w / Second));
     Printed ("restrix: " +:+ err)].
Proof.
  intros ns Hw Hl Hwi Hcs Hos Hf r. subst r ns. enter w. subst wr.
  open_DoCtx. step_on.
  rewrite (stored_state_lookup _ _ _ _ Hcs), init_marker_reply, Hos. simp.
  step_on. rewrite Hf. simp. rewrite flipOpen_on, Hl. simp.
  split; [reflexivity|].
  apply since_app. cbn [trace]. now rewrite <- !app_assoc.
Qed.

(** ** The course of a call *)

Lemma flipClose_trace b name w :
  trace (snd (flipClose b name w)) =
    trace w ++ [Tx (flipClose_cmds (newNamespacer name))].
Proof.
  unfold flipClose, bind.
  destruct (transaction_cases (flipClose_cmds (newNamespacer name)) w) as (_ & Ht & _).
  destruct (transaction _ w) as [[res|err] w1]; exact Ht.
Qed.

Lemma recordError_trace b name w :
  trace (snd (recordError b name w)) =
    trace w ++ [Tx (recordError_cmds b (newNamespacer name))].
Proof.
  unfold recordError, bind.
  destruct (transaction_cases (recordError_cmds b (newNamespacer name)) w) as (_ & Ht & _).
  destruct (transaction _ w) as [[res|err] w1]; exact Ht.
Qed.

Lemma flipOpen_trace b name w :
  trace (snd (flipOpen b name w)) =
    trace w ++ [Tx (flipOpen_cmds b (newNamespacer name) (clock w / Second))].
Proof.
  unfold flipOpen, bind, Now_Unix.
  destruct (transaction_cases
              (flipOpen_cmds b (newNamespacer name) (clock w / Second)) w)
    as (_ & Ht & _).
  destruct (transaction _ w) as [[res|err] w1]; exact Ht.
Qed.

(** Take the next engine function of the equation [E] apart, keeping what
    it adds to the trace. *)
Ltac advance E f lemma T :=
  match type of E with
  | context [f ?b ?name ?x] =>
      pose proof (lemma b name x) as T;
      destruct (f b name x) as [[[? ?] [?|]] ?] || destruct (f b name x) as [[?|] ?];
      cbn [snd trace] in T
  end.

Ltac whole_trace :=
  cbn [trace];
  repeat match goal with
         | H : trace ?x = _ |- context [trace ?x] => rewrite H
         end;
  rewrite <- ?app_assoc; reflexivity.

Ltac leaf E w :=
  injection E as <- <-;
  erewrite (since_app w) by whole_trace;
  cbn [app];
  split; [constructor; constructor|];
  split; intros HR;
    first [ reflexivity
          | now left
          | right; eexists; reflexivity
          | exfalso; cbn [In] in HR; intuition discriminate
          | exfalso; cbn [In] in HR; tauto ].

(** X7. Every guarded call, on any store and any connection, takes one of
    five courses: [init] alone; [init] and [preRun]; these and the call
    of the wrapped function; these and one bookkeeping batch; these and a
    printed diagnostic.  So the wrapped function is called at most once and
    never before [init] and [preRun]; when it was called, [DoCtx] returns
    what it returned, nil included; when it was not, [DoCtx] returns the
    circuit-open error or a store error behind the prefix "restrix: ". *)
Theorem call_course b ctx name runFnCtx w :
  let ns := newNamespacer name in
  let r := DoCtx b ctx name runFnCtx w in
  course b ns (since w (snd r)) /\
  (In Ran (since w (snd r)) -> fst r = runFnCtx ctx) /\
  (~ In Ran (since w (snd r)) ->
     fst r = Some ErrCircuitOpened \/
     exists msg, fst r = Some ("restrix: " +:+ msg)).
Proof.
  intros ns r. subst r ns.
  destruct (DoCtx b ctx name runFnCtx w) as [res w'] eqn:E. cbn [fst snd].
  unfold DoCtx, FlipOpen, call, Printf_restrix, bind, log, ret in E.
  advance E init init_trace T1; [leaf E w|].
  destruct (_ && _); [leaf E w|].
  advance E preRun preRun_trace T2; [leaf E w|].
  destruct (runFnCtx ctx) as [err|] eqn:Hf.
  - destruct (String.eqb _ circuitStateHalfOpened).
    { advance E flipOpen flipOpen_trace T3; leaf E w. }
    cbv zeta in E. destruct (_ || _).
    + advance E recordError recordError_trace T3; leaf E w.
    + advance E flipOpen flipOpen_trace T3; leaf E w.
  - destruct (negb _); [leaf E w|].
    advance E flipClose flipClose_trace T3; leaf E w.
Qed.

(** ** Calls that find the circuit closed *)

Lemma flipOpen_stamp (b : Breaker) (ns : namespacer) (now : Z) (st : gmap string entry) :
  applied (flipOpen_cmds b ns now) st !! lastOpenedAt ns = Some (Entry (itoa now) None).
Proof.
  unfold applied, flipOpen_cmds. rewrite !exec_cons. cbn [fst exec exec1].
  now rewrite lookup_insert_eq.
Qed.

(** X8. A guarded call that finds the circuit closed and whose wrapped
    function succeeds returns nil and does nothing but count the request:
    the request count goes up by one, and the error count, the state and
    every key that is not one of the two counters or an absent state key
    stay as they were; no bookkeeping batch is sent.  Here the interval is
    of whole seconds, from 1 to 999999. *)
Theorem success_only_counts b ctx name runFnCtx w n :
  let ns := newNamespacer name in
  healthy w ->
  whole_seconds (interval b) = true ->
  stored_state (store w) ns = circuitStateClosed ->
  count_at (store w) (requestCount ns) = Some n -> n < max_int64 ->
  runFnCtx ctx = None ->
  let r := DoCtx b ctx name runFnCtx w in
  fst r = None /\
  since w (snd r) = [Tx (init_cmds ns); Tx (preRun_cmds b ns); Ran] /\
  count_at (store (snd r)) (requestCount ns) = Some (n + 1) /\
  count_at (store (snd r)) (errorCount ns) = count_at (store w) (errorCount ns) /\
  stored_state (store (snd r)) ns = circuitStateClosed /\
  (forall k, k <> requestCount ns -> k <> errorCount ns -> k <> currentState ns ->
     store (snd r) !! k = store w !! k).
Proof.
  intros ns Hw Hwi Hcs Hrc Hn Hf r.
  pose proof (whole_seconds_pos _ Hwi) as Hi. subst r ns.
  enter w. subst wr. open_DoCtx. step. rewrite Hcs. simp. step. rewrite Hf. simp.
  set (ns := newNamespacer name) in *.
  set (st1 := applied (init_cmds ns) st).
  assert (Hrc1 : count_at st1 (requestCount ns) = Some n).
  { rewrite <- Hrc. apply count_at_ext, init_frame. auto with keys. }
  destruct (preRun_requests b ns st1 n Hi Hrc1 Hn) as [_ Hrc2].
  destruct (preRun_errors b ns st1 Hi) as [Hec2 _].
  split; [reflexivity|]. split.
  { apply since_app. cbn [trace]. now rewrite <- !app_assoc. }
  split; [exact Hrc2|]. split.
  { rewrite Hec2. apply count_at_ext, init_frame. auto with keys. }
  split.
  { rewrite <- Hcs. etransitivity; [|apply init_stored_state].
    apply stored_state_ext, preRun_frame; auto with keys. }
  intros k H1 H2 H3. rewrite preRun_frame by assumption. now apply init_frame.
Qed.

(** X9. The failure that opens a closed circuit is not itself recorded:
    the call goes from the wrapped function to [flipOpen], which writes
    the state OPENED, a marker with the sleep window as its life and the
    second of the opening, and leaves both counters standing, the request
    count raised by [preRun] and the error count where it was.  Here the
    interval and the sleep window are whole seconds, from 1 to 999999. *)
Theorem opening_keeps_the_counters b ctx name runFnCtx w n e err :
  let ns := newNamespacer name in
  healthy w ->
  own_key ns ->
  whole_seconds (interval b) = true ->
  whole_seconds (sleepWindow b) = true ->
  stored_state (store w) ns = circuitStateClosed ->
  count_at (store w) (requestCount ns) = Some n -> n < max_int64 ->
  count_at (store w) (errorCount ns) = Some e ->
  runFnCtx ctx = Some err ->
  requestCountThreshold b <= n + 1 ->
  errorPercentThreshold b <= errPercentage e (n + 1) ->
  let r := DoCtx b ctx name runFnCtx w in
  fst r = Some err /\
  since w (snd r) =
    [Tx (init_cmds ns); Tx (preRun_cmds b ns); Ran;
     Tx (flipOpen_cmds b ns (clock w / Second))] /\
  store (snd r) !! currentState ns = Some (Entry circuitStateOpened None) /\
  store (snd r) !! openStateTTL ns = Some (marker (sleepWindow b)) /\
  store (snd r) !! lastOpenedAt ns = Some (Entry (itoa (clock w / Second)) None) /\
  count_at (store (snd r)) (requestCount ns) = Some (n + 1) /\
  count_at (store (snd r)) (errorCount ns) = Some e.
Proof.
  intros ns Hw Hown Hwi Hsw Hcs Hrc Hn Hec Hf Hq Hp r.
  pose proof (whole_seconds_pos _ Hwi) as Hi. subst r ns.
  enter w. subst wr. open_DoCtx. step. rewrite Hcs. simp.
  set (ns := newNamespacer name) in *.
  set (st1 := applied (init_cmds ns) st).
  assert (Hrc1 : count_at st1 (requestCount ns) = Some n).
  { rewrite <- Hrc. apply count_at_ext, init_frame. auto with keys. }
  assert (Hec1 : count_at st1 (errorCount ns) = Some e).
  { rewrite <- Hec. apply count_at_ext, init_frame. auto with keys. }
  step. fold ns. fold st1.
  destruct (preRun_requests b ns st1 n Hi Hrc1 Hn) as [Hq' Hrc2].
  destruct (preRun_errors b ns st1 Hi) as [Hec2 Hp'].
  rewrite Hq', (Hp' e Hec1), Hf. simp.
  rewrite (proj2 (Z.ltb_ge _ _) Hq), (proj2 (Z.ltb_ge _ _) Hp). simp.
  step. fold ns.
  pose proof Hown as Hown'. own_keys Hown'.
  rewrite flipOpen_state, flipOpen_marker_whole, flipOpen_stamp by assumption.
  repeat split.
  - apply since_app. cbn [trace]. now rewrite <- !app_assoc.
  - rewrite <- Hrc2. apply count_at_ext, flipOpen_frame; auto with keys.
  - rewrite <- Hec1, <- Hec2. apply count_at_ext, flipOpen_frame; auto with keys.
Qed.

(** ** The counting window *)

Lemma transaction_up (cmds : list command) st clk wr tr :
  hd Up wr = Up ->
  transaction cmds (World st clk wr tr) =
    (inl (replies cmds st), World (applied cmds st) clk (tl wr) (tr ++ [Tx cmds])).
Proof.
  intros Hup. unfold transaction, applied, replies. cbn [store wire clock trace].
  destruct (exec cmds st) as [st' rs].
  destruct wr as [|l rest]; [|cbn in Hup; subst l]; reflexivity.
Qed.

Lemma life_of_ext st st' k : st' !! k = st !! k -> life_of st' k = life_of st k.
Proof. unfold life_of. now intros ->. Qed.

(** What the two counting batches have in common: whatever the counters
    hold, each of them is there afterwards, with the life it had or, if it
    had none, with the interval. *)
Lemma preRun_life (b : Breaker) (ns : namespacer) (st : gmap string entry) (k : string) :
  whole_seconds (interval b) = true ->
  k = requestCount ns \/ k = errorCount ns ->
  life_of (applied (preRun_cmds b ns) st) k =
    Some (default (interval b) (life_of st k)).
Proof.
  intros Hi Hk. unfold life_of.
  destruct Hk as [-> | ->];
    destruct (st !! requestCount ns) as [[v [t|]]|] eqn:E1;
    destruct (st !! errorCount ns) as [[v' [t'|]]|] eqn:E2;
    grind; reflexivity.
Qed.

Lemma recordError_life (b : Breaker) (ns : namespacer) (st : gmap string entry) (k : string) :
  whole_seconds (interval b) = true ->
  k = requestCount ns \/ k = errorCount ns ->
  life_of (applied (recordError_cmds b ns) st) k =
    Some (default (interval b) (life_of st k)).
Proof.
  intros Hi Hk. unfold life_of.
  destruct Hk as [-> | ->];
    destruct (st !! requestCount ns) as [[v [t|]]|] eqn:E1;
    destruct (st !! errorCount ns) as [[v' [t'|]]|] eqn:E2;
    grind; reflexivity.
Qed.

(** X10. [preRun] never renews a counting window: after it both counters
    are there, each with the life it had before, and with the interval as
    its life only where it had none (the key was absent, or had been
    written without a life); this holds whatever the counters contain, for
    an interval of whole seconds, from 1 to 999999. *)
Theorem preRun_keeps_the_window b name w k :
  let ns := newNamespacer name in
  link_up w ->
  whole_seconds (interval b) = true ->
  k = requestCount ns \/ k = errorCount ns ->
  life_of (store (snd (preRun b name w))) k =
    Some (default (interval b) (life_of (store w) k)).
Proof.
  intros ns Hup Hi Hk. subst ns. enter w.
  unfold preRun, bind. rewrite transaction_up by assumption.
  cbn [snd ret store]. now apply preRun_life.
Qed.

Lemma recordError_requests (b : Breaker) (ns : namespacer) (st : gmap string entry) :
  0 < interval b ->
  value <$> applied (recordError_cmds b ns) st !! requestCount ns =
    Some (default "1" (value <$> st !! requestCount ns)).
Proof.
  intros Hi.
  destruct (st !! requestCount ns) as [[v [t|]]|] eqn:E1;
    destruct (st !! errorCount ns) as [[v' [t'|]]|] eqn:E2;
    grind; reflexivity.
Qed.

(** X11. [recordError] on its own: it raises the error count by one and
    leaves the request count as it stands, but where the request counter is
    gone (its window ran out while the wrapped function was at work) it
    puts it back at 1, so that a new window opens with one request and one
    error; no window in progress is renewed, and no other key changes.
    Here the interval is of whole seconds, from 1 to 999999. *)
Theorem recordError_counts b name w z :
  let ns := newNamespacer name in
  link_up w ->
  whole_seconds (interval b) = true ->
  count_at (store w) (errorCount ns) = Some z -> z < max_int64 ->
  let r := recordError b name w in
  fst r = None /\
  count_at (store (snd r)) (errorCount ns) = Some (z + 1) /\
  value <$> store (snd r) !! requestCount ns =
    Some (default "1" (value <$> store w !! requestCount ns)) /\
  (forall k, k = requestCount ns \/ k = errorCount ns ->
     life_of (store (snd r)) k = Some (default (interval b) (life_of (store w) k))) /\
  (forall k, k <> requestCount ns -> k <> errorCount ns ->
     store (snd r) !! k = store w !! k).
Proof.
  intros ns Hup Hwi Hz Hmax r.
  pose proof (whole_seconds_pos _ Hwi) as Hi. subst r ns. enter w.
  unfold recordError, bind. rewrite transaction_up by assumption.
  cbn [fst snd ret store]. split; [reflexivity|].
  split; [now apply recordError_errors|].
  split; [now apply recordError_requests|].
  split; [intros k Hk; now apply recordError_life|].
  intros k H1 H2. now apply recordError_frame.
Qed.

(** ** The cooldown *)

(** X12. Once the circuit is open, with [t] of the marker's life left,
    time alone decides: a call that comes less than [t] later is refused
    with the circuit-open error and changes nothing in the store, and a
    call that comes [t] later or more runs the wrapped function.  Here the
    caller's interval is of whole seconds, from 1 to 999999. *)
Theorem cooldown b ctx name runFnCtx w t d :
  let ns := newNamespacer name in
  healthy w ->
  whole_seconds (interval b) = true ->
  store w !! currentState ns = Some (Entry circuitStateOpened None) ->
  store w !! openStateTTL ns = Some (marker t) ->
  let w1 := elapse d w in
  let r := DoCtx b ctx name runFnCtx w1 in
  (d < t -> fst r = Some ErrCircuitOpened /\ store (snd r) = store w1) /\
  (In Ran (since w1 (snd r)) <-> t <= d).
Proof.
  intros ns Hw Hwi Hcs Hos w1 r. subst r w1 ns. enter w. subst wr.
  unfold elapse. cbn [store clock wire trace].
  set (ns := newNamespacer name) in *.
  assert (Hcs1 : expire d st !! currentState ns = Some (Entry circuitStateOpened None)).
  { rewrite expire_lookup, Hcs. reflexivity. }
  assert (Hos1 : expire d st !! openStateTTL ns =
                 if d <? t then Some (marker (t - d)) else None).
  { rewrite expire_lookup, Hos. cbn. unfold age. cbn [ttl marker value].
    destruct (d <? t); reflexivity. }
  destruct (Z.ltb_spec d t) as [Hlt|Hge].
  - rewrite (refused_run b ctx name runFnCtx (expire d st) (clk + d) [] tr
               None (marker (t - d)) eq_refl Hcs1 Hos1 eq_refl).
    cbn [fst snd store tl]. split; [auto|].
    erewrite since_app by reflexivity. cbn [In]. split; [|lia].
    intros [H|[]]. discriminate H.
  - split; [lia|]. split; [intros _; exact Hge|intros _].
    destruct (runFnCtx ctx) as [err|] eqn:Hf.
    + rewrite (failed_probe_run _ _ _ _ _ _ _ _ _ Hcs1 Hos1 Hf). cbn [snd].
      erewrite since_app by reflexivity. cbn. auto.
    + rewrite (successful_probe_run _ _ _ _ _ _ _ _ Hcs1 Hos1 Hf). cbn [snd].
      erewrite since_app by reflexivity. cbn. auto.
Qed.

(** ** What every reachable store looks like *)

(** X13. HALF_OPENED is a state of a call, never of the store: in every
    world a breaker name can reach, the state key holds CLOSED or OPENED
    and has no life of its own, so that it does not run out. *)
Theorem stores_closed_or_opened name w :
  let ns := newNamespacer name in
  own_key ns ->
  reachable name w ->
  (stored_state (store w) ns = circuitStateClosed \/
   stored_state (store w) ns = circuitStateOpened) /\
  (forall e d, store w !! currentState ns = Some e ->
     expire d (store w) !! currentState ns = Some e).
Proof.
  intros ns Hown Hr. subst ns.
  set (ns := newNamespacer name) in *.
  set (good := fun st : gmap string entry =>
         forall e, st !! currentState ns = Some e ->
           ttl e = None /\
           (value e = circuitStateClosed \/ value e = circuitStateOpened)).
  assert (Hg : good (store w)).
  { induction Hr as [w Hk|w b ctx f Hr IH|w d Hd Hr IH|w l Hr IH].
    - intros e He. rewrite Hk in He; [discriminate|]. unfold keys. cbn. auto.
    - revert IH. apply (DoCtx_preserves (fun w => good (store w)) b name).
      + intros e _ w1 Hc. exact Hc.
      + intros cmds Hb w1 Hc.
        destruct (transaction_cases cmds w1) as (_ & _ & [-> | ->]); [exact Hc|].
        intros e. destruct Hb.
        * fold ns. rewrite init_applied.
          destruct (store w1 !! currentState ns) as [e0|] eqn:E.
          { intros He. apply Hc. congruence. }
          rewrite lookup_insert_eq. intros [= <-]. auto.
        * fold ns. rewrite preRun_frame by auto with keys. apply Hc.
        * fold ns. rewrite flipClose_state. intros [= <-]. auto.
        * fold ns. rewrite flipOpen_state by assumption. intros [= <-]. auto.
        * fold ns. rewrite recordError_frame by auto with keys. apply Hc.
    - intros e. cbn [elapse store]. rewrite expire_lookup.
      destruct (store w !! currentState ns) as [e0|] eqn:E; [|discriminate].
      cbn. unfold age. destruct (IH e0 E) as [Ht Hv]. rewrite Ht.
      intros [= <-]. auto.
    - exact IH. }
  split.
  - unfold stored_state. destruct (store w !! currentState ns) as [e|] eqn:E.
    + exact (proj2 (Hg e E)).
    + now left.
  - intros e d He. rewrite expire_lookup, He. cbn. unfold age.
    now rewrite (proj1 (Hg e He)).
Qed.

(** *** Names do not meet *)

Lemma batch_frame b ns cmds st k :
  engine_batch b ns cmds ->
  ~ In k (keys ns) -> k <> lastOpenedAt ns ->
  applied cmds st !! k = st !! k.
Proof.
  intros Hb Hk Hl. apply exec_frame. intros Hin.
  destruct (engine_batch_keys _ _ _ _ Hb Hin); tauto.
Qed.

(** X14. Breakers of different names do not meet: a guarded call for one
    name leaves the state, the counters and the marker of every name of
    another slug as they are, whatever the call does and however the
    connection fares. *)
Theorem other_names_untouched b ctx name other runFnCtx w k :
  strings_TrimSpace (slug_Make name) <> strings_TrimSpace (slug_Make other) ->
  ~ In (lastOpenedAt (newNamespacer name)) (keys (newNamespacer other)) ->
  In k (keys (newNamespacer other)) ->
  store (snd (DoCtx b ctx name runFnCtx w)) !! k = store w !! k.
Proof.
  intros Hslug Hlast Hk.
  assert (H1 : ~ In k (keys (newNamespacer name))).
  { intros H. apply Hslug.
    apply (inj (String.append "restrix:")). exact (key_inj _ _ _ H Hk). }
  assert (H2 : k <> lastOpenedAt (newNamespacer name)) by (intros ->; tauto).
  apply (DoCtx_preserves (fun w1 => store w1 !! k = store w !! k) b name).
  - intros e _ w1 Hc. exact Hc.
  - intros cmds Hb w1 Hc.
    destruct (transaction_cases cmds w1) as (_ & _ & [-> | ->]); [exact Hc|].
    rewrite <- Hc. now apply (batch_frame b (newNamespacer name)).
  - reflexivity.
Qed.

(** *** No key of a breaker lives for ever *)

Lemma lives_bounded_counting b ns st st' :
  whole_seconds (interval b) = true ->
  (forall k, k = requestCount ns \/ k = errorCount ns ->
     life_of st' k = Some (default (interval b) (life_of st k))) ->
  st' !! openStateTTL ns = st !! openStateTTL ns ->
  lives_bounded b st ns -> lives_bounded b st' ns.
Proof.
  intros Hwi Hlife Hos [Hm Hc]. pose proof (whole_seconds_pos _ Hwi) as Hi. split.
  - intros e. rewrite Hos. apply Hm.
  - intros k e Hk He.
    specialize (Hlife k Hk). unfold life_of in Hlife. rewrite He in Hlife.
    cbn in Hlife. destruct (st !! k) as [e0|] eqn:E0; cbn in Hlife.
    + destruct (Hc k e0 Hk E0) as (t & Ht & Hb). rewrite Ht in Hlife.
      exists t. now split.
    + exists (interval b). split; [exact Hlife | lia].
Qed.

Lemma batch_lives b ns cmds st :
  own_key ns ->
  whole_seconds (interval b) = true ->
  whole_seconds (sleepWindow b) = true ->
  engine_batch b ns cmds ->
  lives_bounded b st ns -> lives_bounded b (applied cmds st) ns.
Proof.
  intros Hown Hwi Hws Hb Hl. pose proof Hown as Hown'. own_keys Hown'.
  destruct Hb.
  - destruct Hl as [Hm Hc]. split.
    + intros e. rewrite init_frame by auto with keys. apply Hm.
    + intros k e Hk. rewrite init_frame by (destruct Hk as [-> | ->]; auto with keys).
      now apply Hc.
  - revert Hl. apply lives_bounded_counting; [assumption | |].
    + intros k Hk. now apply preRun_life.
    + apply preRun_frame; auto with keys.
  - split.
    + intros e. rewrite flipClose_gone by tauto. discriminate.
    + intros k e Hk. rewrite flipClose_gone by tauto. discriminate.
  - destruct Hl as [Hm Hc]. split.
    + intros e. rewrite flipOpen_marker_whole by assumption.
      intros [= <-]. exists (sleepWindow b). cbn.
      pose proof (whole_seconds_pos _ Hws). split; [reflexivity | lia].
    + intros k e Hk.
      rewrite flipOpen_frame by (destruct Hk as [-> | ->]; auto with keys).
      now apply Hc.
  - revert Hl. apply lives_bounded_counting; [assumption | |].
    + intros k Hk. now apply recordError_life.
    + apply recordError_frame; auto with keys.
Qed.

Lemma age_life d e e' t :
  0 <= d -> age d e = Some e' -> ttl e = Some t ->
  ttl e' = Some (t - d) /\ d < t.
Proof.
  intros Hd Ha Ht. unfold age in Ha. rewrite Ht in Ha.
  destruct (Z.ltb_spec d t); [|discriminate].
  injection Ha as <-. now split.
Qed.

(** X15. While every caller of a name has the same settings, an interval
    and a sleep window of whole seconds from 1 to 999999, no marker and no counter of the
    name is ever without a life: in every world the name can reach, a
    marker has a positive life no longer than the sleep window, and a
    counter a positive life no longer than the interval.  So an open
    circuit always comes to its probe, and every counting window ends. *)
Theorem lives_stay_bounded b name w :
  let ns := newNamespacer name in
  own_key ns ->
  whole_seconds (interval b) = true ->
  whole_seconds (sleepWindow b) = true ->
  reachable_with b name w ->
  lives_bounded b (store w) ns.
Proof.
  intros ns Hown Hwi Hws Hr. subst ns.
  induction Hr as [w Hk|w ctx f Hr IH|w d Hd Hr IH|w l Hr IH].
  - split.
    + intros e He. rewrite Hk in He; [discriminate|]. unfold keys. cbn. auto.
    + intros k e Hin He. rewrite Hk in He; [discriminate|].
      unfold keys. cbn. intuition auto.
  - revert IH.
    apply (DoCtx_preserves
             (fun w => lives_bounded b (store w) (newNamespacer name)) b name).
    + intros e _ w1 Hc. exact Hc.
    + intros cmds Hb w1 Hc.
      destruct (transaction_cases cmds w1) as (_ & _ & [-> | ->]);
        [exact Hc | now apply batch_lives].
  - destruct IH as [Hm Hc]. cbn [elapse store]. split.
    + intros e. rewrite expire_lookup.
      destruct (store w !! openStateTTL (newNamespacer name)) as [e0|] eqn:E;
        [|discriminate].
      cbn. intros Ha. destruct (Hm e0 eq_refl) as (t & Ht & Hb).
      destruct (age_life _ _ _ _ Hd Ha Ht) as [Ht' Hlt].
      exists (t - d). split; [exact Ht' | lia].
    + intros k e Hk. rewrite expire_lookup.
      destruct (store w !! k) as [e0|] eqn:E; [|discriminate].
      cbn. intros Ha. destruct (Hc k e0 Hk E) as (t & Ht & Hb).
      destruct (age_life _ _ _ _ Hd Ha Ht) as [Ht' Hlt].
      exists (t - d). split; [exact Ht' | lia].
  - exact IH.
Qed.

(** *** The two counters go together *)

Lemma counted_coherent st ns : request_counted st ns -> counters_coherent st ns.
Proof.
  intros [H | (r & e & t & H1 & H2 & Hb & Hm & _)]; [now left|].
  right. now exists r, e, t.
Qed.

Lemma counters_coherent_ext st st' ns :
  st' !! requestCount ns = st !! requestCount ns ->
  st' !! errorCount ns = st !! errorCount ns ->
  counters_coherent st ns -> counters_coherent st' ns.
Proof. unfold counters_coherent. now intros -> ->. Qed.

Lemma in_int64_count (r : Z) : 0 <= r <= max_int64 -> in_int64 r = true.
Proof. intros H. apply in_int64_spec. unfold min_int64, max_int64 in *. lia. Qed.

(** The counters after a counting batch: gone, or standing at [r] and [e]
    with one of the lives a batch can leave them. *)
Ltac standing r e ot :=
  solve [ right; exists r, e, ot;
          split; [grind; reflexivity|]; split; [grind; reflexivity|];
          unfold max_int64 in *; lia ].

Ltac settle b r e ot :=
  first [ solve [left; split; grind; reflexivity]
        | standing r e ot
        | standing r e (Some (interval b))
        | standing r e (@None Duration) ].

Lemma preRun_counted (b : Breaker) (ns : namespacer) (st : gmap string entry) :
  counters_coherent st ns ->
  request_counted (applied (preRun_cmds b ns) st) ns.
Proof.
  intros [[H1 H2] | (r & e & ot & H1 & H2 & Hb & Hm)];
    destruct (integral_seconds (interval b)) eqn:Ei;
    destruct (Z.ltb_spec 0 (interval b)) as [Hi|Hi].
  1-4: settle b 1 0 (@None Duration).
  all: assert (Hr : in_int64 r = true) by (apply in_int64_count; lia).
  all: destruct ot as [t|]; destruct (Z.ltb_spec r max_int64) as [Hlt|Hge].
  all: match type of H1 with
       | _ = Some (Entry _ ?ot) => first [settle b (r + 1) e ot | settle b r e ot]
       end.
Qed.

Lemma recordError_coherent (b : Breaker) (ns : namespacer) (st : gmap string entry) :
  request_counted st ns ->
  counters_coherent (applied (recordError_cmds b ns) st) ns.
Proof.
  intros [[H1 H2] | (r & e & ot & H1 & H2 & Hb & Hm & Hlt)];
    destruct (integral_seconds (interval b)) eqn:Ei;
    destruct (Z.ltb_spec 0 (interval b)) as [Hi|Hi].
  1-4: settle b 1 1 (@None Duration).
  all: assert (He : in_int64 e = true) by (apply in_int64_count; lia).
  all: destruct ot as [t|]; destruct (Z.ltb_spec e max_int64) as [Hlt'|Hge].
  all: match type of H1 with
       | _ = Some (Entry _ ?ot) => first [settle b r (e + 1) ot | settle b r e ot]
       end.
Qed.

(** What each engine function makes of the counters, on any connection. *)

Lemma transaction_store (cmds : list command) (w : world) :
  let r := transaction cmds w in
  (store (snd r) = store w \/ store (snd r) = applied cmds (store w)) /\
  (forall rs, fst r = inl rs -> store (snd r) = applied cmds (store w)).
Proof.
  unfold transaction, applied. destruct (exec cmds (store w)) as [st' rs'].
  destruct (wire w) as [|[| |] rest]; cbn; split; auto; discriminate.
Qed.

Lemma init_counters b name w :
  let ns := newNamespacer name in
  counters_coherent (store w) ns ->
  counters_coherent (store (snd (init b name w))) ns.
Proof.
  intros ns Hc. unfold init, bind. fold ns.
  destruct (transaction_store (init_cmds ns) w) as [Hs _].
  destruct (transaction (init_cmds ns) w) as [[rs|err] w1]; cbn [snd ret] in *;
    (destruct Hs as [-> | ->]; [exact Hc|]);
    (revert Hc; apply counters_coherent_ext; apply init_frame; auto with keys).
Qed.

Lemma preRun_counters b name w :
  let ns := newNamespacer name in
  counters_coherent (store w) ns ->
  let r := preRun b name w in
  counters_coherent (store (snd r)) ns /\
  (snd (fst r) = None -> request_counted (store (snd r)) ns).
Proof.
  intros ns Hc. unfold preRun, bind. fold ns.
  destruct (transaction_store (preRun_cmds b ns) w) as [Hs Hok].
  destruct (transaction (preRun_cmds b ns) w) as [[rs|err] w1];
    cbn [fst snd ret] in *.
  - rewrite (Hok rs eq_refl). split; [apply counted_coherent|intros _];
      now apply preRun_counted.
  - split; [|discriminate].
    destruct Hs as [-> | ->]; [exact Hc|].
    now apply counted_coherent, preRun_counted.
Qed.

Lemma recordError_counters b name w :
  let ns := newNamespacer name in
  request_counted (store w) ns ->
  counters_coherent (store (snd (recordError b name w))) ns.
Proof.
  intros ns Hc. unfold recordError, bind. fold ns.
  destruct (transaction_store (recordError_cmds b ns) w) as [Hs _].
  destruct (transaction (recordError_cmds b ns) w) as [[rs|err] w1];
    cbn [snd ret] in *;
    (destruct Hs as [-> | ->];
     [now apply counted_coherent | now apply recordError_coherent]).
Qed.

Lemma flipClose_counters b name w :
  let ns := newNamespacer name in
  request_counted (store w) ns ->
  counters_coherent (store (snd (flipClose b name w))) ns.
Proof.
  intros ns Hc. unfold flipClose, bind. fold ns.
  destruct (transaction_store (flipClose_cmds ns) w) as [Hs _].
  destruct (transaction (flipClose_cmds ns) w) as [[rs|err] w1];
    cbn [snd ret] in *;
    (destruct Hs as [-> | ->]; [now apply counted_coherent|]);
    left; split; apply flipClose_gone; auto.
Qed.

Lemma flipOpen_counters b name w :
  let ns := newNamespacer name in
  own_key ns ->
  request_counted (store w) ns ->
  counters_coherent (store (snd (flipOpen b name w))) ns.
Proof.
  intros ns Hown Hc. own_keys Hown. unfold flipOpen, bind, Now_Unix. fold ns.
  destruct (transaction_store (flipOpen_cmds b ns (clock w / Second)) w) as [Hs _].
  destruct (transaction _ w) as [[rs|err] w1];
    cbn [snd ret] in *;
    (destruct Hs as [-> | ->]; [now apply counted_coherent|]);
    (apply counted_coherent in Hc; revert Hc; apply counters_coherent_ext;
     apply flipOpen_frame; auto with keys).
Qed.

Lemma DoCtx_counters b ctx name runFnCtx w :
  let ns := newNamespacer name in
  own_key ns ->
  counters_coherent (store w) ns ->
  counters_coherent (store (snd (DoCtx b ctx name runFnCtx w))) ns.
Proof.
  intros ns Hown Hc.
  destruct (DoCtx b ctx name runFnCtx w) as [res w'] eqn:E. cbn [snd].
  unfold DoCtx, FlipOpen, call, Printf_restrix, bind, log, ret in E.
  pose proof (init_counters b name w Hc) as C1.
  destruct (init b name w) as [[[state osTTL] [e0|]] w1]; cbn [snd] in C1.
  { now injection E as <- <-. }
  destruct (_ && _); [now injection E as <- <-|].
  destruct (preRun_counters b name w1 C1) as [C2 C2'].
  destruct (preRun b name w1) as [[[reqCount errCount] [e1|]] w2];
    cbn [fst snd] in C2, C2'.
  { now injection E as <- <-. }
  specialize (C2' eq_refl). cbn [store] in E.
  set (w3 := World (store w2) (clock w2) (wire w2) (trace w2 ++ [Ran])) in E.
  assert (C3 : request_counted (store w3) ns) by exact C2'.
  clearbody w3.
  destruct (runFnCtx ctx) as [err|].
  - destruct (String.eqb _ circuitStateHalfOpened).
    { pose proof (flipOpen_counters b name w3 Hown C3) as C4.
      destruct (flipOpen b name w3) as [[e|] w4]; now injection E as <- <-. }
    cbv zeta in E. destruct (_ || _).
    + pose proof (recordError_counters b name w3 C3) as C4.
      destruct (recordError b name w3) as [[e|] w4]; now injection E as <- <-.
    + pose proof (flipOpen_counters b name w3 Hown C3) as C4.
      destruct (flipOpen b name w3) as [[e|] w4]; now injection E as <- <-.
  - destruct (negb _).
    { injection E as <- <-. now apply counted_coherent. }
    pose proof (flipClose_counters b name w3 C3) as C4.
    destruct (flipClose b name w3) as [[e|] w4]; now injection E as <- <-.
Qed.

Lemma expire_counters d st ns :
  counters_coherent st ns -> counters_coherent (expire d st) ns.
Proof.
  intros [[H1 H2] | (r & e & ot & H1 & H2 & Hb)].
  - left. rewrite !expire_lookup, H1, H2. now split.
  - unfold counters_coherent. rewrite !expire_lookup, H1, H2. cbn.
    unfold age. cbn [ttl value]. destruct ot as [t|]; [destruct (d <? t)|].
    + right. now exists r, e, (Some (t - d)).
    + now left.
    + right. now exists r, e, (@None Duration).
Qed.

(** X16. In every world a breaker name can reach, whatever the settings
    of its callers and however the connection fares, the two counters go
    together: both hold integers, the error count is no more than the
    request count, the one is there exactly when the other is, and both
    have the same life left, so that they run out at the same moment. *)
Theorem counters_go_together name w :
  let ns := newNamespacer name in
  own_key ns ->
  reachable name w ->
  (exists r e,
     count_at (store w) (requestCount ns) = Some r /\
     count_at (store w) (errorCount ns) = Some e /\ 0 <= e <= r) /\
  (store w !! requestCount ns = None <-> store w !! errorCount ns = None) /\
  life_of (store w) (requestCount ns) = life_of (store w) (errorCount ns).
Proof.
  intros ns Hown Hr. subst ns.
  set (ns := newNamespacer name) in *.
  assert (Hc : counters_coherent (store w) ns).
  { induction Hr as [w Hk|w b ctx f Hr IH|w d Hd Hr IH|w l Hr IH].
    - left. split; apply Hk; unfold keys; cbn; auto.
    - now apply DoCtx_counters.
    - now apply expire_counters.
    - exact IH. }
  destruct Hc as [[H1 H2] | (r & e & ot & H1 & H2 & Hb & Hm)].
  - unfold count_at, life_of. rewrite H1, H2. split; [|now split].
    exists 0, 0. repeat split; lia.
  - unfold count_at, life_of. rewrite H1, H2. cbn [value].
    split; [|split; [split; discriminate | reflexivity]].
    exists r, e. rewrite !string2ll_itoa by (apply in_int64_count; lia).
    now repeat split.
Qed.

(** ** From closed to open and back *)

Lemma opening_run b ctx name runFnCtx st clk tr n e err :
  let ns := newNamespacer name in
  0 < interval b ->
  stored_state st ns = circuitStateClosed ->
  count_at st (requestCount ns) = Some n -> n < max_int64 ->
  count_at st (errorCount ns) = Some e ->
  runFnCtx ctx = Some err ->
  requestCountThreshold b <= n + 1 ->
  errorPercentThreshold b <= errPercentage e (n + 1) ->
  let st2 := applied (preRun_cmds b ns) (applied (init_cmds ns) st) in
  let cmds := flipOpen_cmds b ns (clk / Second) in
  DoCtx b ctx name runFnCtx (World st clk [] tr) =
    (Some err,
     World (applied cmds st2) clk []
       (tr ++ [Tx (init_cmds ns); Tx (preRun_cmds b ns); Ran; Tx cmds])).
Proof.
  intros ns Hi Hcs Hrc Hn Hec Hf Hq Hp st2 cmds. subst st2 cmds ns.
  open_DoCtx. step. rewrite Hcs. simp.
  set (ns := newNamespacer name) in *.
  set (st1 := applied (init_cmds ns) st).
  assert (Hrc1 : count_at st1 (requestCount ns) = Some n).
  { rewrite <- Hrc. apply count_at_ext, init_frame. auto with keys. }
  assert (Hec1 : count_at st1 (errorCount ns) = Some e).
  { rewrite <- Hec. apply count_at_ext, init_frame. auto with keys. }
  step. fold ns. fold st1.
  destruct (preRun_requests b ns st1 n Hi Hrc1 Hn) as [Hq' _].
  destruct (preRun_errors b ns st1 Hi) as [_ Hp'].
  rewrite Hq', (Hp' e Hec1), Hf. simp.
  rewrite (proj2 (Z.ltb_ge _ _) Hq), (proj2 (Z.ltb_ge _ _) Hp). simp.
  step. fold ns. rewrite <- !app_assoc. reflexivity.
Qed.

(** X17. The whole round: when a failing call has opened a closed
    circuit, every call that comes before the sleep window is over is
    refused with the circuit-open error, whatever its wrapped function;
    and a call that comes once the window is over and whose wrapped
    function succeeds returns nil and leaves the circuit closed, with no
    marker and with both counters gone, so that counting starts afresh.
    Here the interval and the sleep window are whole seconds, from 1 to
    999999. *)
Theorem trip_and_recover b ctx name bad good w n e err :
  let ns := newNamespacer name in
  healthy w ->
  own_key ns ->
  whole_seconds (interval b) = true ->
  whole_seconds (sleepWindow b) = true ->
  stored_state (store w) ns = circuitStateClosed ->
  count_at (store w) (requestCount ns) = Some n -> n < max_int64 ->
  count_at (store w) (errorCount ns) = Some e ->
  requestCountThreshold b <= n + 1 ->
  errorPercentThreshold b <= errPercentage e (n + 1) ->
  bad ctx = Some err ->
  good ctx = None ->
  let opened := snd (DoCtx b ctx name bad w) in
  (forall d work, d < sleepWindow b ->
     fst (DoCtx b ctx name work (elapse d opened)) = Some ErrCircuitOpened) /\
  (forall d, sleepWindow b <= d ->
     let r := DoCtx b ctx name good (elapse d opened) in
     fst r = None /\
     store (snd r) !! currentState ns = Some (Entry circuitStateClosed None) /\
     store (snd r) !! openStateTTL ns = None /\
     store (snd r) !! requestCount ns = None /\
     store (snd r) !! errorCount ns = None).
Proof.
  intros ns Hw Hown Hwi Hsw Hcs Hrc Hn Hec Hq Hp Hbad Hgood opened.
  pose proof (whole_seconds_pos _ Hwi) as Hi.
  subst opened ns. enter w. subst wr.
  rewrite (opening_run _ _ _ _ _ _ _ _ _ _ Hi Hcs Hrc Hn Hec Hbad Hq Hp).
  cbn [snd]. unfold elapse. cbn [store clock wire trace].
  set (ns := newNamespacer name) in *.
  set (st3 := applied (flipOpen_cmds b ns (clk / Second)) _).
  assert (Hcs3 : forall d,
            expire d st3 !! currentState ns = Some (Entry circuitStateOpened None)).
  { intros d. rewrite expire_lookup. unfold st3.
    rewrite flipOpen_state by assumption. reflexivity. }
  assert (Hos3 : forall d,
            expire d st3 !! openStateTTL ns =
              if d <? sleepWindow b then Some (marker (sleepWindow b - d)) else None).
  { intros d. rewrite expire_lookup. unfold st3.
    rewrite flipOpen_marker_whole by assumption. cbn. unfold age. cbn [ttl marker value].
    destruct (d <? sleepWindow b); reflexivity. }
  split.
  - intros d work Hd. specialize (Hos3 d).
    rewrite (proj2 (Z.ltb_lt _ _) Hd) in Hos3.
    rewrite (refused_run b ctx name work (expire d st3) (clk + d) [] _
               None _ eq_refl (Hcs3 d) Hos3 eq_refl).
    reflexivity.
  - intros d Hd. specialize (Hos3 d).
    rewrite (proj2 (Z.ltb_ge _ _) Hd) in Hos3. cbv zeta.
    rewrite (successful_probe_run _ _ _ _ _ _ _ _ (Hcs3 d) Hos3 Hgood).
    cbn [fst snd store].
    rewrite flipClose_state, !flipClose_gone by tauto.
    repeat split.
Qed.

(** ** What a call never does to the state *)

Lemma transaction_keeps_state (cmds : list command) (ns : namespacer) (w : world) :
  (forall st, stored_state (applied cmds st) ns = stored_state st ns) ->
  stored_state (store (snd (transaction cmds w))) ns = stored_state (store w) ns.
Proof.
  intros H. destruct (transaction_store cmds w) as [[Hs | Hs] _];
    rewrite Hs; auto.
Qed.

Lemma init_returns b name w :
  let ns := newNamespacer name in
  let r := init b name w in
  stored_state (store (snd r)) ns = stored_state (store w) ns /\
  (snd (fst r) = None -> fst (fst (fst r)) = stored_state (store w) ns).
Proof.
  intros ns. destruct w as [st clk [|l rest] tr].
  - rewrite init_healthy. cbn [fst snd store]. fold ns.
    split; [apply init_stored_state | reflexivity].
  - rewrite init_on. fold ns.
    destruct l; cbn [down reached fst snd store];
      split; try discriminate; try reflexivity; apply init_stored_state.
Qed.

Lemma preRun_keeps_state b name w :
  let ns := newNamespacer name in
  stored_state (store (snd (preRun b name w))) ns = stored_state (store w) ns.
Proof.
  intros ns. unfold preRun, bind. fold ns.
  pose proof (transaction_keeps_state (preRun_cmds b ns) ns w) as H.
  destruct (transaction (preRun_cmds b ns) w) as [[rs|err] w1]; cbn [snd ret] in *;
    apply H; intros st; apply stored_state_ext, preRun_frame; auto with keys.
Qed.

Lemma recordError_keeps_state b name w :
  let ns := newNamespacer name in
  stored_state (store (snd (recordError b name w))) ns = stored_state (store w) ns.
Proof.
  intros ns. unfold recordError, bind. fold ns.
  pose proof (transaction_keeps_state (recordError_cmds b ns) ns w) as H.
  destruct (transaction (recordError_cmds b ns) w) as [[rs|err] w1];
    cbn [snd ret] in *;
    apply H; intros st; apply stored_state_ext, recordError_frame; auto with keys.
Qed.

Lemma flipOpen_opened b name w :
  let ns := newNamespacer name in
  own_key ns ->
  stored_state (store w) ns = circuitStateOpened ->
  stored_state (store (snd (flipOpen b name w))) ns = circuitStateOpened.
Proof.
  intros ns Hown Hs. unfold flipOpen, bind, Now_Unix. fold ns.
  destruct (transaction_store (flipOpen_cmds b ns (clock w / Second)) w) as [Hc _].
  destruct (transaction _ w) as [[rs|err] w1]; cbn [snd ret] in *;
    (destruct Hc as [-> | ->]; [exact Hs|]);
    apply (stored_state_lookup _ _ _ None); now apply flipOpen_state.
Qed.

(** X18. However the connection fares: a call whose wrapped function
    succeeds never opens a closed circuit, and a call whose wrapped
    function fails never closes an open one, be it refused or run as a
    probe. *)
Theorem state_moves_one_way b ctx name runFnCtx w :
  let ns := newNamespacer name in
  own_key ns ->
  let w' := snd (DoCtx b ctx name runFnCtx w) in
  (runFnCtx ctx = None ->
   stored_state (store w) ns = circuitStateClosed ->
   stored_state (store w') ns = circuitStateClosed) /\
  (forall err, runFnCtx ctx = Some err ->
   stored_state (store w) ns = circuitStateOpened ->
   stored_state (store w') ns = circuitStateOpened).
Proof.
  intros ns Hown w'. subst w'.
  destruct (DoCtx b ctx name runFnCtx w) as [res w'] eqn:E. cbn [snd].
  unfold DoCtx, FlipOpen, call, Printf_restrix, bind, log, ret in E.
  destruct (init_returns b name w) as [S1 R1]. fold ns in S1, R1.
  destruct (init b name w) as [[[state osTTL] [e0|]] w1]; cbn [fst snd] in S1, R1.
  { injection E as <- <-. rewrite S1. split; [auto | intros; auto]. }
  specialize (R1 eq_refl). subst state.
  pose proof (preRun_keeps_state b name w1) as S2. fold ns in S2.
  split.
  - intros Hf Hs. rewrite Hs in *. revert E. simp. intros E.
    destruct (preRun b name w1) as [[[reqCount errCount] [e1|]] w2]; cbn [snd] in S2.
    { injection E as <- <-. congruence. }
    rewrite Hf in E. revert E. simp. intros E.
    injection E as <- <-. cbn [store]. congruence.
  - intros err Hf Hs. rewrite Hs in *. revert E. simp. intros E.
    destruct (0 <? osTTL).
    { revert E. simp. intros E. injection E as <- <-. exact S1. }
    revert E. simp. intros E.
    destruct (preRun b name w1) as [[[reqCount errCount] [e1|]] w2]; cbn [snd] in S2.
    { injection E as <- <-. congruence. }
    rewrite Hf in E. revert E. simp. intros E.
    match type of E with
    | context [flipOpen b name ?x] =>
        assert (S3 : stored_state (store (snd (flipOpen b name x))) ns
                     = circuitStateOpened)
          by (apply flipOpen_opened; [exact Hown | cbn [store]; fold ns; congruence]);
        destruct (flipOpen b name x) as [[e|] w3]
    end; injection E as <- <-; exact S3.
Qed.

End Properties.

(** * The theorems at work on the examples *)

Lemma plain_own_key : @own_key plain payments.
Proof.
  unfold own_key. vm_compute. intuition discriminate.
Qed.

Lemma blank_has_no_keys (k : string) : store blank !! k = None.
Proof. apply lookup_empty. Qed.

Lemma refuses_while_open_witness :
  let r := @DoCtx plain breaker tt "payments" (failing "boom") opened_live in
  fst r = Some (@ErrCircuitOpened plain) /\
  since opened_live (snd r) = [Tx (init_cmds payments)] /\
  store (snd r) = store opened_live.
Proof.
  apply (@refuses_while_open plain breaker tt "payments" (failing "boom")
           opened_live None (4 * Second)).
  - reflexivity.
  - vm_compute; reflexivity.
  - vm_compute; reflexivity.
  - reflexivity.
Defined.

Lemma opens_at_both_thresholds_witness :
  let r := @DoCtx plain breaker tt "payments" (failing "boom") one_of_one in
  stored_state (store (snd r)) payments = circuitStateOpened.
Proof.
  apply (@opens_at_both_thresholds plain breaker tt "payments" (failing "boom")
           one_of_one 1 1 "boom").
  - reflexivity.
  - exact plain_own_key.
  - vm_compute; reflexivity.
  - vm_compute; reflexivity.
  - vm_compute; reflexivity.
  - vm_compute; reflexivity.
  - reflexivity.
  - vm_compute; reflexivity.
  - reflexivity.
  - reflexivity.
  - vm_compute. split; discriminate.
Defined.

Lemma error_ratio_of_the_decision_witness :
  let r := @DoCtx plain breaker tt "payments" (failing "boom") one_of_one in
  fst (@preRun plain breaker "payments" (snd (@init plain breaker "payments" one_of_one)))
    = (2, 1, None) /\
  (stored_state (store (snd r)) payments = circuitStateOpened <->
     2 <= 2 /\ 50 <= 100).
Proof.
  apply (@error_ratio_of_the_decision plain breaker tt "payments" (failing "boom")
           one_of_one 1 1 "boom").
  - reflexivity.
  - exact plain_own_key.
  - vm_compute; reflexivity.
  - vm_compute; reflexivity.
  - vm_compute; reflexivity.
  - vm_compute; reflexivity.
  - reflexivity.
  - vm_compute; reflexivity.
  - reflexivity.
  - reflexivity.
Defined.



Lemma returns_the_work_error_witness :
  fst (@DoCtx plain breaker tt "payments" (failing "boom") one_of_one) = Some "boom".
Proof.
  apply (@returns_the_work_error plain breaker tt "payments" (failing "boom")
           one_of_one "boom").
  - reflexivity.
  - vm_compute. do 2 right. left. reflexivity.
Defined.

Lemma after_two_failures_reachable : @reachable plain "payments" after_two_failures.
Proof.
  unfold after_two_failures. do 2 apply reach_call.
  apply reach_start. intros k _. apply blank_has_no_keys.
Qed.

Lemma marker_only_when_opened_witness :
  stored_state (store after_two_failures) payments = circuitStateOpened.
Proof.
  apply (proj1 (@marker_only_when_opened plain "payments" after_two_failures
                  plain_own_key after_two_failures_reachable)).
  exists (marker (10 * Second)). vm_compute; reflexivity.
Defined.

Lemma names_five_keys_witness :
  In (@lastOpenedAt plain payments)
     (touched (since opened_cold
        (snd (@DoCtx plain breaker tt "payments" (failing "boom") opened_cold)))).
Proof.
  apply (proj2 (@names_five_keys plain breaker tt "payments" (failing "boom")
                  opened_cold) None "boom").
  - reflexivity.
  - vm_compute; reflexivity.
  - vm_compute; reflexivity.
  - vm_compute; reflexivity.
  - reflexivity.
Defined.

Lemma first_success_witness :
  let r := @DoCtx plain breaker tt "payments" succeeding blank in
  fst r = None /\
  store (snd r) !! requestCount payments = Some (Entry "1" (Some (interval breaker))) /\
  store (snd r) !! errorCount payments = Some (Entry "0" (Some (interval breaker))) /\
  store (snd r) !! currentState payments = Some (Entry circuitStateClosed None) /\
  since blank (snd r) = [Tx (init_cmds payments); Tx (preRun_cmds breaker payments); Ran].
Proof.
  apply (@first_success plain breaker tt "payments" succeeding blank).
  - reflexivity.
  - vm_compute; reflexivity.
  - intros k _. apply blank_has_no_keys.
  - reflexivity.
Defined.

Lemma failed_probe_counts_witness :
  let r := @DoCtx plain breaker tt "payments" (failing "boom") opened_cold in
  count_at (store (snd r)) (requestCount payments) = Some (5 + 1) /\
  count_at (store (snd r)) (errorCount payments) =
    count_at (store opened_cold) (errorCount payments) /\
  since opened_cold (snd r) =
    [Tx (init_cmds payments); Tx (preRun_cmds breaker payments); Ran;
     Tx (@flipOpen_cmds plain breaker payments (clock opened_cold / Second))].
Proof.
  apply (@failed_probe_counts plain breaker tt "payments" (failing "boom")
           opened_cold None 5 "boom").
  - reflexivity.
  - exact plain_own_key.
  - vm_compute; reflexivity.
  - vm_compute; reflexivity.
  - vm_compute; reflexivity.
  - vm_compute; reflexivity.
  - vm_compute; reflexivity.
  - reflexivity.
  - reflexivity.
Defined.

(** ** The cases of TestBreaker_DoCtx, replayed on the model *)

Example test_circuit_closed :
  let r := @DoCtx plain breaker tt "payments" succeeding blank in
  fst r = None /\
  value <$> store (snd r) !! requestCount payments = Some "1" /\
  value <$> store (snd r) !! currentState payments = Some "CLOSED".
Proof. vm_compute. repeat split. Qed.

Example test_noflip_below_request_count_threshold :
  let r := @DoCtx plain breaker tt "payments" (failing "error nih") blank in
  value <$> store (snd r) !! requestCount payments = Some "1" /\
  value <$> store (snd r) !! errorCount payments = Some "1" /\
  value <$> store (snd r) !! currentState payments = Some "CLOSED".
Proof. vm_compute. repeat split. Qed.

Example test_noflip_below_error_percentage :
  let w := stocked [(requestCount payments, Entry "1000" None)] in
  let r := @DoCtx plain breaker tt "payments" (failing "error nih") w in
  value <$> store (snd r) !! requestCount payments = Some "1001" /\
  value <$> store (snd r) !! errorCount payments = Some "1" /\
  value <$> store (snd r) !! currentState payments = Some "CLOSED".
Proof. vm_compute. repeat split. Qed.

Example test_flip_open :
  let r := @DoCtx plain breaker tt "payments" (failing "error nih") one_of_one in
  value <$> store (snd r) !! requestCount payments = Some "2" /\
  value <$> store (snd r) !! currentState payments = Some "OPENED" /\
  exists t, ttl <$> store (snd r) !! openStateTTL payments = Some (Some t) /\
            0 < t <= sleepWindow breaker.
Proof.
  cbv zeta. split; [vm_compute; reflexivity|]. split; [vm_compute; reflexivity|].
  exists (10 * Second). split; [vm_compute; reflexivity|].
  vm_compute. split; [reflexivity | discriminate].
Qed.

Example test_half_open_still_open :
  let w := stocked [(currentState payments, Entry "OPENED" None)] in
  let r := @DoCtx plain breaker tt "payments" (failing "error nih") w in
  value <$> store (snd r) !! currentState payments = Some "OPENED" /\
  exists t, ttl <$> store (snd r) !! openStateTTL payments = Some (Some t) /\
            0 < t <= sleepWindow breaker.
Proof.
  cbv zeta. split; [vm_compute; reflexivity|].
  exists (10 * Second). split; [vm_compute; reflexivity|].
  vm_compute. split; [reflexivity | discriminate].
Qed.

Example test_half_open_flip_close :
  let w := stocked [(currentState payments, Entry "OPENED" None)] in
  let r := @DoCtx plain breaker tt "payments" succeeding w in
  fst r = None /\
  value <$> store (snd r) !! currentState payments = Some "CLOSED".
Proof. vm_compute. repeat split. Qed.

(** The float64 percentage on some counts: one error in one request, one in
    three, one in 1001, and 29 in 100, where the quotient 0.29 times 100
    falls just short of 29. *)
Example errPercentage_samples :
  errPercentage 0 1 = 100 /\ errPercentage 0 3 = 33 /\
  errPercentage 0 1001 = 0 /\ errPercentage 28 100 = 28.
Proof. vm_compute. repeat split. Qed.

(** ** Where the code parts from the specification *)


(** C7 as stated does not hold: ten seconds after two failures opened the
    circuit, the stored state is still OPENED and the marker is gone. *)
Lemma opened_without_marker :
  @reachable plain "payments" ten_seconds_later /\
  ~ (is_Some (store ten_seconds_later !! openStateTTL payments) <->
     stored_state (store ten_seconds_later) payments = circuitStateOpened).
Proof.
  split.
  - apply reach_elapse; [discriminate | exact after_two_failures_reachable].
  - intros [_ H]. assert (E : stored_state (store ten_seconds_later) payments
                               = circuitStateOpened) by (vm_compute; reflexivity).
    apply H in E. destruct E as [e E]. vm_compute in E. discriminate.
Qed.

(** C8 as stated does not hold: a failed probe writes a fifth key. *)
Lemma fifth_key_written :
  let r := @DoCtx plain breaker tt "payments" (failing "boom") opened_cold in
  In "restrix:payments:last_opened_at" (touched (since opened_cold (snd r))) /\
  ~ In "restrix:payments:last_opened_at" (keys payments).
Proof. vm_compute. split; [auto 20 | intuition discriminate]. Qed.

(** ** The further properties at work *)

Lemma init_reads_state_and_marker_witness :
  let r := @init plain breaker "payments" opened_live in
  (store opened_live !! openStateTTL payments = None ->
     fst r = (stored_state (store opened_live) payments, 0, None)) /\
  (forall t, store opened_live !! openStateTTL payments = Some (marker t) ->
     fst r = (stored_state (store opened_live) payments, Second, None)) /\
  value <$> store (snd r) !! currentState payments =
    Some (stored_state (store opened_live) payments) /\
  (forall k, k <> currentState payments \/
             is_Some (store opened_live !! currentState payments) ->
     store (snd r) !! k = store opened_live !! k).
Proof.
  apply (@init_reads_state_and_marker plain breaker "payments" opened_live).
  reflexivity.
Defined.

Lemma init_failure_aborts_witness :
  let w := plug [DownBefore "i/o timeout"] blank in
  let r := @DoCtx plain breaker tt "payments" succeeding w in
  fst r = Some ("restrix: " +:+ "i/o timeout") /\
  since w (snd r) = [Tx (init_cmds payments)] /\
  (reached (DownBefore "i/o timeout") = false -> store (snd r) = store w).
Proof.
  apply (@init_failure_aborts plain breaker tt "payments" succeeding
           (plug [DownBefore "i/o timeout"] blank)
           (DownBefore "i/o timeout") [] "i/o timeout").
  - reflexivity.
  - reflexivity.
Defined.

Lemma preRun_failure_aborts_witness :
  let w := plug [Up; DownAfter "EOF"] blank in
  let r := @DoCtx plain breaker tt "payments" succeeding w in
  fst r = Some ("restrix: " +:+ "EOF") /\
  since w (snd r) = [Tx (init_cmds payments); Tx (preRun_cmds breaker payments)] /\
  count_at (store (snd r)) (requestCount payments) =
    Some (if reached (DownAfter "EOF") then 0 + 1 else 0).
Proof.
  apply (@preRun_failure_aborts plain breaker tt "payments" succeeding
           (plug [Up; DownAfter "EOF"] blank) (DownAfter "EOF") [] "EOF" 0).
  - reflexivity.
  - reflexivity.
  - vm_compute; reflexivity.
  - vm_compute; reflexivity.
  - vm_compute; reflexivity.
  - reflexivity.
Defined.

Lemma flipClose_failure_is_not_fatal_witness :
  let w := plug [Up; Up; DownBefore "EOF"] opened_cold in
  let r := @DoCtx plain breaker tt "payments" succeeding w in
  fst r = None /\
  since w (snd r) =
    [Tx (init_cmds payments); Tx (preRun_cmds breaker payments); Ran;
     Tx (flipClose_cmds payments); Printed ("restrix: " +:+ "EOF")] /\
  (reached (DownBefore "EOF") = false ->
     store (snd r) !! currentState payments = Some (Entry circuitStateOpened None) /\
     store (snd r) !! openStateTTL payments = None).
Proof.
  apply (@flipClose_failure_is_not_fatal plain breaker tt "payments" succeeding
           (plug [Up; Up; DownBefore "EOF"] opened_cold)
           (DownBefore "EOF") [] "EOF" None).
  - reflexivity.
  - reflexivity.
  - vm_compute; reflexivity.
  - vm_compute; reflexivity.
  - vm_compute; reflexivity.
  - reflexivity.
Defined.

Lemma flipOpen_failure_prints_work_error_witness :
  let w := plug [Up; Up; DownBefore "EOF"] opened_cold in
  let r := @DoCtx plain breaker tt "payments" (failing "boom") w in
  fst r = Some "boom" /\
  since w (snd r) =
    [Tx (init_cmds payments); Tx (preRun_cmds breaker payments); Ran;
     Tx (@flipOpen_cmds plain breaker payments (clock w / Second));
     Printed ("restrix: " +:+ "boom")].
Proof.
  apply (@flipOpen_failure_prints_work_error plain breaker tt "payments"
           (failing "boom") (plug [Up; Up; DownBefore "EOF"] opened_cold)
           (DownBefore "EOF") [] "EOF" None "boom").
  - reflexivity.
  - reflexivity.
  - vm_compute; reflexivity.
  - vm_compute; reflexivity.
  - vm_compute; reflexivity.
  - reflexivity.
Defined.

Lemma success_only_counts_witness :
  let r := @DoCtx plain breaker tt "payments" succeeding one_of_one in
  fst r = None /\
  since one_of_one (snd r) =
    [Tx (init_cmds payments); Tx (preRun_cmds breaker payments); Ran] /\
  count_at (store (snd r)) (requestCount payments) = Some (1 + 1) /\
  count_at (store (snd r)) (errorCount payments) =
    count_at (store one_of_one) (errorCount payments) /\
  stored_state (store (snd r)) payments = circuitStateClosed /\
  (forall k, k <> requestCount payments -> k <> errorCount payments ->
             k <> currentState payments ->
     store (snd r) !! k = store one_of_one !! k).
Proof.
  apply (@success_only_counts plain breaker tt "payments" succeeding one_of_one 1).
  - reflexivity.
  - vm_compute; reflexivity.
  - vm_compute; reflexivity.
  - vm_compute; reflexivity.
  - reflexivity.
  - reflexivity.
Defined.

Lemma opening_keeps_the_counters_witness :
  let r := @DoCtx plain breaker tt "payments" (failing "boom") one_of_one in
  fst r = Some "boom" /\
  since one_of_one (snd r) =
    [Tx (init_cmds payments); Tx (preRun_cmds breaker payments); Ran;
     Tx (@flipOpen_cmds plain breaker payments (clock one_of_one / Second))] /\
  store (snd r) !! currentState payments = Some (Entry circuitStateOpened None) /\
  store (snd r) !! openStateTTL payments = Some (marker (sleepWindow breaker)) /\
  store (snd r) !! @lastOpenedAt plain payments =
    Some (Entry (itoa (clock one_of_one / Second)) None) /\
  count_at (store (snd r)) (requestCount payments) = Some (1 + 1) /\
  count_at (store (snd r)) (errorCount payments) = Some 1.
Proof.
  apply (@opening_keeps_the_counters plain breaker tt "payments" (failing "boom")
           one_of_one 1 1 "boom").
  - reflexivity.
  - exact plain_own_key.
  - vm_compute; reflexivity.
  - vm_compute; reflexivity.
  - vm_compute; reflexivity.
  - vm_compute; reflexivity.
  - reflexivity.
  - vm_compute; reflexivity.
  - reflexivity.
  - vm_compute; discriminate.
  - vm_compute; discriminate.
Defined.

Lemma preRun_keeps_the_window_witness :
  life_of (store (snd (@preRun plain breaker "payments" opened_live)))
      (requestCount payments) =
    Some (default (interval breaker)
            (life_of (store opened_live) (requestCount payments))).
Proof.
  apply (@preRun_keeps_the_window plain breaker "payments" opened_live
           (requestCount payments)).
  - reflexivity.
  - vm_compute; reflexivity.
  - left; reflexivity.
Defined.

Lemma recordError_counts_witness :
  let r := @recordError plain breaker "payments" one_of_one in
  fst r = None /\
  count_at (store (snd r)) (errorCount payments) = Some (1 + 1) /\
  value <$> store (snd r) !! requestCount payments =
    Some (default "1" (value <$> store one_of_one !! requestCount payments)) /\
  (forall k, k = requestCount payments \/ k = errorCount payments ->
     life_of (store (snd r)) k =
       Some (default (interval breaker) (life_of (store one_of_one) k))) /\
  (forall k, k <> requestCount payments -> k <> errorCount payments ->
     store (snd r) !! k = store one_of_one !! k).
Proof.
  apply (@recordError_counts plain breaker "payments" one_of_one 1).
  - reflexivity.
  - vm_compute; reflexivity.
  - vm_compute; reflexivity.
  - reflexivity.
Defined.

Lemma cooldown_witness :
  let w1 := elapse (4 * Second) opened_live in
  let r := @DoCtx plain breaker tt "payments" succeeding w1 in
  (4 * Second < 4 * Second ->
     fst r = Some (@ErrCircuitOpened plain) /\ store (snd r) = store w1) /\
  (In Ran (since w1 (snd r)) <-> 4 * Second <= 4 * Second).
Proof.
  apply (@cooldown plain breaker tt "payments" succeeding opened_live
           (4 * Second) (4 * Second)).
  - reflexivity.
  - vm_compute; reflexivity.
  - vm_compute; reflexivity.
  - vm_compute; reflexivity.
Defined.

Lemma stores_closed_or_opened_witness :
  (stored_state (store ten_seconds_later) payments = circuitStateClosed \/
   stored_state (store ten_seconds_later) payments = circuitStateOpened) /\
  (forall e d, store ten_seconds_later !! currentState payments = Some e ->
     expire d (store ten_seconds_later) !! currentState payments = Some e).
Proof.
  apply (@stores_closed_or_opened plain "payments" ten_seconds_later).
  - exact plain_own_key.
  - apply reach_elapse; [discriminate | exact after_two_failures_reachable].
Defined.

Lemma other_names_untouched_witness :
  store (snd (@DoCtx plain breaker tt "payments" (failing "boom") opened_cold))
      !! currentState (@newNamespacer plain "orders") =
    store opened_cold !! currentState (@newNamespacer plain "orders").
Proof.
  apply (@other_names_untouched plain breaker tt "payments" "orders"
           (failing "boom") opened_cold).
  - discriminate.
  - vm_compute. intuition discriminate.
  - left; reflexivity.
Defined.

Lemma lives_stay_bounded_witness :
  @lives_bounded breaker (store ten_seconds_later) payments.
Proof.
  apply (@lives_stay_bounded plain breaker "payments" ten_seconds_later).
  - exact plain_own_key.
  - vm_compute; reflexivity.
  - vm_compute; reflexivity.
  - apply reach_with_elapse; [discriminate|].
    unfold after_two_failures. do 2 apply reach_with_call.
    apply reach_with_start. intros k _. apply blank_has_no_keys.
Defined.

Lemma counters_go_together_witness :
  (exists r e,
     count_at (store after_two_failures) (requestCount payments) = Some r /\
     count_at (store after_two_failures) (errorCount payments) = Some e /\
     0 <= e <= r) /\
  (store after_two_failures !! requestCount payments = None <->
   store after_two_failures !! errorCount payments = None) /\
  life_of (store after_two_failures) (requestCount payments) =
    life_of (store after_two_failures) (errorCount payments).
Proof.
  apply (@counters_go_together plain "payments" after_two_failures).
  - exact plain_own_key.
  - exact after_two_failures_reachable.
Defined.

Lemma trip_and_recover_witness :
  let opened := snd (@DoCtx plain breaker tt "payments" (failing "boom") one_of_one) in
  (forall d work, d < sleepWindow breaker ->
     fst (@DoCtx plain breaker tt "payments" work (elapse d opened)) =
       Some (@ErrCircuitOpened plain)) /\
  (forall d, sleepWindow breaker <= d ->
     let r := @DoCtx plain breaker tt "payments" succeeding (elapse d opened) in
     fst r = None /\
     store (snd r) !! currentState payments = Some (Entry circuitStateClosed None) /\
     store (snd r) !! openStateTTL payments = None /\
     store (snd r) !! requestCount payments = None /\
     store (snd r) !! errorCount payments = None).
Proof.
  apply (@trip_and_recover plain breaker tt "payments" (failing "boom") succeeding
           one_of_one 1 1 "boom").
  - reflexivity.
  - exact plain_own_key.
  - vm_compute; reflexivity.
  - vm_compute; reflexivity.
  - vm_compute; reflexivity.
  - vm_compute; reflexivity.
  - reflexivity.
  - vm_compute; reflexivity.
  - vm_compute; discriminate.
  - vm_compute; discriminate.
  - reflexivity.
  - reflexivity.
Defined.

Lemma state_moves_one_way_witness :
  let w' := snd (@DoCtx plain breaker tt "payments" (failing "boom") opened_cold) in
  (failing "boom" tt = None ->
   stored_state (store opened_cold) payments = circuitStateClosed ->
   stored_state (store w') payments = circuitStateClosed) /\
  (forall err, failing "boom" tt = Some err ->
   stored_state (store opened_cold) payments = circuitStateOpened ->
   stored_state (store w') payments = circuitStateOpened).
Proof.
  apply (@state_moves_one_way plain breaker tt "payments" (failing "boom") opened_cold).
  exact plain_own_key.
Defined.
